(** * ProcessRippedCDs: a shallow embedding and its verified properties

    The development follows [src/ProcessRippedCDs.py] (the current
    implementation) and, inside [Module Legacy], the parts of
    [src/ProcessRippedCDs/ProcessRippedCDs.py] (the older implementation)
    that differ from it.

    Modelling conventions.
    - A Python [str] is a [string]: a sequence of code points below 256.
      Code points from 256 on (among them the non-ASCII decimal digits that
      [int] and [\d] accept) are outside the model.
    - A [pathlib.Path] is the list of its parts, root first.
    - A Python [dict] is an association list in insertion order.
    - An exception is a value of [exn]; a function that can raise returns a
      [result].
    - [assert] statements are executed (the interpreter does not run with
      [-O]).
    - [int] has the interpreter's default limit of 4300 digits for a decimal
      literal.
    - [pathlib] is that of Python 3.12, the first version that reads the
      source; the file system is that of Windows, the only platform that
      [_GetArchiver] accepts: renaming onto an existing path is refused. *)

From Stdlib Require Import ZArith Ascii String DecimalString Lia Sorted.
From stdpp Require Import gmap strings list fin_maps.

Open Scope string_scope.

(** ** Python strings *)

Definition tab : ascii := "009"%char.
Definition newline : ascii := "010"%char.

(** [s.rstrip(c)] for a one-character set [c]: the longest suffix made of
    [c] is removed. *)
Fixpoint rstrip (c : ascii) (s : string) : string :=
  match s with
  | EmptyString => EmptyString
  | String a r =>
      match rstrip c r with
      | EmptyString => if Ascii.eqb a c then EmptyString else String a EmptyString
      | r' => String a r'
      end
  end.

(** [s.split(sep)] for a one-character separator: one more item than there
    are separators; the empty string splits into one empty item. *)
Fixpoint split (sep : ascii) (s : string) : list string :=
  match s with
  | EmptyString => [EmptyString]
  | String a r =>
      if Ascii.eqb a sep then EmptyString :: split sep r
      else match split sep r with
           | h :: t => String a h :: t
           | [] => [String a EmptyString]
           end
  end.

(** [sep.join(items)]. *)
Fixpoint join (sep : string) (items : list string) : string :=
  match items with
  | [] => EmptyString
  | [x] => x
  | x :: rest => x ++ sep ++ join sep rest
  end.

Fixpoint count_char (c : ascii) (s : string) : nat :=
  match s with
  | EmptyString => 0
  | String a r => (if Ascii.eqb a c then 1 else 0) + count_char c r
  end.

(** *** [int(str)]

    [int] strips surrounding white space, accepts one sign, and then wants
    decimal digits, where single underscores may separate digits. *)

(** The white space that [int] strips: the ASCII white space of C, and the
    two further spaces among the code points below 256. *)
Definition is_space (a : ascii) : bool :=
  let n := nat_of_ascii a in
  ((9 <=? n) && (n <=? 13) || (n =? 32) || (n =? 133) || (n =? 160))%nat.

Definition is_digit (a : ascii) : bool :=
  let n := nat_of_ascii a in ((48 <=? n) && (n <=? 57))%nat.

Definition digit_val (a : ascii) : Z := (Z.of_nat (nat_of_ascii a) - 48)%Z.

Fixpoint lstrip_space (s : string) : string :=
  match s with
  | String a r => if is_space a then lstrip_space r else s
  | EmptyString => EmptyString
  end.

Fixpoint rstrip_space (s : string) : string :=
  match s with
  | EmptyString => EmptyString
  | String a r =>
      match rstrip_space r with
      | EmptyString => if is_space a then EmptyString else String a EmptyString
      | r' => String a r'
      end
  end.

(** The digits after the first one: [prev_us] says that the previous
    character was an underscore, which must be followed by a digit. *)
Fixpoint int_digits (acc : Z) (prev_us : bool) (s : string) : option Z :=
  match s with
  | EmptyString => if prev_us then None else Some acc
  | String a r =>
      if is_digit a then int_digits (10 * acc + digit_val a)%Z false r
      else if Ascii.eqb a "_"%char then
             if prev_us then None else int_digits acc true r
           else None
  end.

Definition int_unsigned (s : string) : option Z :=
  match s with
  | String a r => if is_digit a then int_digits (digit_val a) false r else None
  | EmptyString => None
  end.

(** [sys.get_int_max_str_digits()]: the interpreter's default limit on the
    number of digits of a decimal literal that [int] converts. *)
Definition int_max_str_digits : Z := 4300.

(** The digits of a literal: underscores, the sign and the white space
    around it do not count, leading zeros do. *)
Fixpoint count_digits (s : string) : Z :=
  match s with
  | EmptyString => 0
  | String a r => ((if is_digit a then 1 else 0) + count_digits r)%Z
  end.

(** The value of the literal [s], if [int(s)] gives one: [None] for a
    literal that is not valid and for one with more digits than the
    limit, both of which are a [ValueError]. *)
Definition int_of_str (s : string) : option Z :=
  let t := rstrip_space (lstrip_space s) in
  if (int_max_str_digits <? count_digits t)%Z then None
  else
    match t with
    | String "-"%char r => Z.opp <$> int_unsigned r
    | String "+"%char r => int_unsigned r
    | t => int_unsigned t
    end.

(** ** Exceptions and results *)

(** [AssertionError n line] is the parser's, with the arguments of its
    assertion; [AssertionErrorNone] is the one of [assert False, result] in
    [GetInvokeResultSuffix], for a stage that has left no result. *)
Inductive exn :=
| AssertionError (n : nat) (line : string)
| AssertionErrorNone
| ValueError (literal : string)
| IndexError
| UnicodeDecodeError
| NotImplementedError
| FileExistsError (p : list string)
| FileNotFoundError (p : list string)
| PermissionError (p : list string).

Inductive result (A : Type) :=
| Ok (a : A)
| Raise (e : exn).
Arguments Ok {A} a.
Arguments Raise {A} e.

(** Sequencing: an exception ends the computation. *)
#[global] Instance result_bind : MBind result := λ A B k r,
  match r with
  | Ok a => k a
  | Raise e => Raise e
  end.

#[global] Instance result_ret : MRet result := λ A a, Ok a.

(** [int(s)], raising [ValueError] on an invalid literal. *)
Definition int (s : string) : result Z :=
  match int_of_str s with
  | Some z => Ok z
  | None => Raise (ValueError s)
  end.

(** ** [_TrackMetadata] *)

Record _TrackMetadata := {
  title : string;
  artist : string;
  track_num : Z;
  track_length : string;
  composer : string;
  album_title : string;
  album_artist : string;
  album_composer : string;
  album_interpret : string;
  year : Z;
  genre : string;
  comment : string;
  num_tracks : Z;
  track_offset : Z;
  cd_db_type : string;
  cd_db_id : string;
}.

(** [items[i]] of a list of strings; the parser only indexes after it
    has checked the length. *)
Definition item (items : list string) (i : nat) : string :=
  nth i items EmptyString.

(** The [items] of [from_tab_delimited_line]:
    [line.rstrip("\n").rstrip("\t").split("\t")]. *)
Definition line_items (line : string) : list string :=
  split tab (rstrip tab (rstrip newline line)).

(** [_TrackMetadata.from_tab_delimited_line]. The keyword arguments of
    [cls(...)] are evaluated in the order written, so the first invalid
    integer field is the one reported. *)
Definition from_tab_delimited_line (line : string) : result _TrackMetadata :=
  let line' := rstrip tab (rstrip newline line) in
  let items := split tab line' in
  if negb (Nat.eqb (length items) 16) then
    Raise (AssertionError (length items) line')
  else
    tn ← int (item items 2);
    yr ← int (item items 9);
    nt ← int (item items 12);
    off ← int (item items 13);
    Ok {| title := item items 0;
          artist := item items 1;
          track_num := tn;
          track_length := item items 3;
          composer := item items 4;
          album_title := item items 5;
          album_artist := item items 6;
          album_composer := item items 7;
          album_interpret := item items 8;
          year := yr;
          genre := item items 10;
          comment := item items 11;
          num_tracks := nt;
          track_offset := off;
          cd_db_type := item items 14;
          cd_db_id := item items 15 |}.

(** ** Paths

    All paths of a run are resolved and live on one volume: a path is the
    list of the names below the root, and [[]] is the root. *)

Abbreviation Path := (list string).

(** [p.name]. *)
Definition path_name (p : Path) : string := List.last p EmptyString.

(** [p.parent]. *)
Definition path_parent (p : Path) : Path := removelast p.

(** [p / s] for a name [s]; joining the empty name changes nothing. *)
Definition path_join (p : Path) (s : string) : Path :=
  match s with
  | EmptyString => p
  | _ => (p ++ [s])%list
  end.

(** [s.rfind(c)]. *)
Fixpoint rfind (c : ascii) (s : string) : option nat :=
  match s with
  | EmptyString => None
  | String a r =>
      match rfind c r with
      | Some i => Some (S i)
      | None => if Ascii.eqb a c then Some 0 else None
      end
  end.

(** The index at which the suffix of a name starts: the last dot, unless
    it is the first or the last character of the name. *)
Definition suffix_index (name : string) : option nat :=
  match rfind "."%char name with
  | Some i =>
      if ((0 <? i) && (i <? String.length name - 1))%nat then Some i else None
  | None => None
  end.

(** [p.suffix]. *)
Definition name_suffix (name : string) : string :=
  match suffix_index name with
  | Some i => substring i (String.length name - i) name
  | None => EmptyString
  end.

Definition path_suffix (p : Path) : string := name_suffix (path_name p).

(** [p.stem]. *)
Definition name_stem (name : string) : string :=
  match suffix_index name with
  | Some i => substring 0 i name
  | None => name
  end.

(** [p.with_suffix(suffix)] for a valid [suffix]: the old suffix, if any, is
    replaced; a path without a name is refused. *)
Definition with_suffix (p : Path) (suffix : string) : result Path :=
  match path_name p with
  | EmptyString => Raise (ValueError EmptyString)
  | name => Ok (path_parent p ++ [name_stem name +:+ suffix])%list
  end.

(** ** The file system

    A file carries what [readlines()] gives for it when it is opened with
    the UTF-16LE encoding, or [None] when it does not decode. *)

Inductive node :=
| Dir
| File (text : option (list string)).

Abbreviation FS := (gmap (list string) node).

Definition is_dir (fs : FS) (p : Path) : bool :=
  match p with
  | [] => true
  | _ => match fs !! p with Some Dir => true | _ => false end
  end.

Definition is_file (fs : FS) (p : Path) : bool :=
  match fs !! p with Some (File _) => true | _ => false end.

(** The ancestors of a path below the root, outermost first. *)
Fixpoint ancestors (p : Path) : list Path :=
  match p with
  | [] | [_] => []
  | x :: rest => [x] :: map (cons x) (ancestors rest)
  end.

(** [mkdir(parents=True, exist_ok=True)] over the ancestors. *)
Fixpoint make_dirs (ps : list Path) (fs : FS) : result FS :=
  match ps with
  | [] => Ok fs
  | q :: rest =>
      match fs !! q with
      | Some Dir => make_dirs rest fs
      | Some (File _) => Raise (FileExistsError q)
      | None => make_dirs rest (<[q := Dir]> fs)
      end
  end.

(** [p.mkdir(parents=True)]. *)
Definition mkdir_parents (p : Path) (fs : FS) : result FS :=
  match fs !! p with
  | Some _ => Raise (FileExistsError p)
  | None => fs' ← make_dirs (ancestors p) fs; Ok (<[p := Dir]> fs')
  end.

(** [shutil.rmtree(p)]: [p] and everything below it goes. *)
Definition rmtree (p : Path) (fs : FS) : FS :=
  filter (λ kv, ¬ p `prefix_of` kv.1) fs.

(** [p.unlink(missing_ok=True)]. *)
Definition unlink_missing_ok (p : Path) (fs : FS) : result FS :=
  match fs !! p with
  | None => Ok fs
  | Some (File _) => Ok (delete p fs)
  | Some Dir => Raise (PermissionError p)
  end.

(** The subtree at [src] moved to [dst]. *)
Definition move_tree (src dst : Path) (fs : FS) : FS :=
  list_to_map
    (map (λ kv : Path * node, ((dst ++ drop (length src) kv.1)%list, kv.2))
         (map_to_list (filter (λ kv, src `prefix_of` kv.1) fs)))
  ∪ rmtree src fs.

(** [src.rename(dst)] as Windows does it: an existing target is refused. *)
Definition rename (src dst : Path) (fs : FS) : result FS :=
  match fs !! src with
  | None => Raise (FileNotFoundError src)
  | Some _ =>
      if bool_decide (src = dst) then Ok fs
      else match fs !! dst with
           | Some _ => Raise (FileExistsError dst)
           | None =>
               if is_dir fs (path_parent dst) then Ok (move_tree src dst fs)
               else Raise (FileNotFoundError dst)
           end
  end.

(** [shutil.copy(src, dst)]. *)
Definition copy (src dst : Path) (fs : FS) : result FS :=
  match fs !! src with
  | Some (File c) =>
      let target := if is_dir fs dst then path_join dst (path_name src) else dst in
      if is_dir fs (path_parent target) then Ok (<[target := File c]> fs)
      else Raise (FileNotFoundError target)
  | Some Dir => Raise (PermissionError src)
  | None => Raise (FileNotFoundError src)
  end.

(** ** Regular expressions

    The two patterns of the source are sequences of single characters and
    greedy repetitions of a character class. [re.match] anchors at the
    start of the string only, tries the longest repetition first and backs
    off one character at a time. *)

Inductive cclass :=
| Digit              (* \d *)
| AnyChar            (* . : any character but a newline *)
| Lit (c : ascii).

Inductive atom :=
| One (c : cclass)
| Many (c : cclass) (least : nat).   (* greedy: c{least,} *)

Definition in_class (c : cclass) (a : ascii) : bool :=
  match c with
  | Digit => is_digit a
  | AnyChar => negb (Ascii.eqb a newline)
  | Lit x => Ascii.eqb a x
  end.

(** How many leading characters of [s] are in the class. *)
Fixpoint run_length (c : cclass) (s : string) : nat :=
  match s with
  | String a r => if in_class c a then S (run_length c r) else 0
  | EmptyString => 0
  end.

Definition str_take (k : nat) (s : string) : string := substring 0 k s.
Definition str_drop (k : nat) (s : string) : string :=
  substring k (String.length s - k) s.

(** [re_match re s]: the text consumed by each atom in the first match
    that backtracking finds, if there is one. *)
Fixpoint re_match (re : list atom) (s : string) : option (list string) :=
  match re with
  | [] => Some []
  | One c :: re' =>
      match s with
      | String a r =>
          if in_class c a then cons (String a EmptyString) <$> re_match re' r
          else None
      | EmptyString => None
      end
  | Many c least :: re' =>
      (fix try (k : nat) : option (list string) :=
         let here :=
           if (least <=? k)%nat then cons (str_take k s) <$> re_match re' (str_drop k s)
           else None in
         match here with
         | Some caps => Some caps
         | None => match k with
                   | 0 => None
                   | S k' => try k'
                   end
         end) (run_length c s)
  end.

Definition lit (s : string) : list atom :=
  map (λ a, One (Lit a)) (list_ascii_of_string s).

(** [(?P<track_num>\d+).+\.wav] *)
Definition wav_regex : list atom :=
  Many Digit 1 :: Many AnyChar 1 :: lit ".wav".

(** [match.group("track_num")]: the text of the first atom. *)
Definition group_track_num (re : list atom) (name : string) : option string :=
  match re_match re name with
  | Some (g :: _) => Some g
  | _ => None
  end.

(** ** Dictionaries: association lists in insertion order *)

Abbreviation dict := (list (Z * Path)).

(** [d.get(k)]. *)
Fixpoint dict_get (d : dict) (k : Z) : option Path :=
  match d with
  | [] => None
  | (k', v) :: rest => if Z.eqb k' k then Some v else dict_get rest k
  end.

(** [d[k] = v]: an existing key keeps its place. *)
Fixpoint dict_set (d : dict) (k : Z) (v : Path) : dict :=
  match d with
  | [] => [(k, v)]
  | (k', v') :: rest =>
      if Z.eqb k' k then (k', v) :: rest else (k', v') :: dict_set rest k v
  end.

(** [d.pop(k, None)]: the value and the dictionary without the key. *)
Fixpoint dict_pop (d : dict) (k : Z) : option Path * dict :=
  match d with
  | [] => (None, [])
  | (k', v) :: rest =>
      if Z.eqb k' k then (Some v, rest)
      else let '(r, rest') := dict_pop rest k in (r, (k', v) :: rest')
  end.

(** [d.values()]. *)
Definition dict_values (d : dict) : list Path := map snd d.

(** [d1 == d2] for dictionaries without repeated keys: the same keys with
    the same values, in any order. *)
Definition dict_eq (d1 d2 : dict) : Prop :=
  ∀ k, dict_get d1 k = dict_get d2 k.

(** ** [_Album] *)

Record _Album := {
  source_dir : Path;
  tracks : list _TrackMetadata;
  album_pic : option Path;
  metadata_filename : option Path;
  log_filename : option Path;
  wav_lookup : list (Z * Path);
}.

(** The warnings of [from_directory], one constructor for each
    [dm.WriteWarning] of the source, with the values it interpolates. *)
Inductive Warning :=
| SubdirectoryNotExpected (name : string)
| MultipleMetadataFiles
| MultipleLogFiles
| MultipleAlbumPictures
| FilenameNotExpected (name : string)
| NoWavFiles
| NoMetadataFile
| WavNotInExpectedFormat (name : string)
| MultipleWavFiles (track : Z) (prev cur : string)
| InvalidMetadata (ex : exn) (line : nat).

(** What a step of the classifier gives: a value, [return None] after a
    warning, or an exception. *)
Inductive outcome (A : Type) :=
| Value (a : A)
| Rejected (w : Warning)
| Raised (e : exn).
Arguments Value {A} a.
Arguments Rejected {A} w.
Arguments Raised {A} e.

#[global] Instance outcome_bind : MBind outcome := λ A B k o,
  match o with
  | Value a => k a
  | Rejected w => Rejected w
  | Raised e => Raised e
  end.

Definition lift {A} (r : result A) : outcome A :=
  match r with
  | Ok a => Value a
  | Raise e => Raised e
  end.

(** The four variables of the first loop of [from_directory]. *)
Record scan := {
  wav_filenames : list Path;
  scan_metadata : option Path;
  scan_pic : option Path;
  scan_log : option Path;
}.

Definition scan_empty : scan :=
  {| wav_filenames := []; scan_metadata := None; scan_pic := None; scan_log := None |}.

(** The body of the loop over [directory.iterdir()]. *)
Definition scan_item (fs : FS) (item : Path) (st : scan) : outcome scan :=
  if negb (is_file fs item) then Rejected (SubdirectoryNotExpected (path_name item))
  else
    let sfx := path_suffix item in
    if String.eqb sfx ".wav" then
      Value {| wav_filenames := (wav_filenames st ++ [item])%list;
               scan_metadata := scan_metadata st;
               scan_pic := scan_pic st; scan_log := scan_log st |}
    else if String.eqb sfx ".txt" then
      match scan_metadata st with
      | Some _ => Rejected MultipleMetadataFiles
      | None => Value {| wav_filenames := wav_filenames st;
                         scan_metadata := Some item;
                         scan_pic := scan_pic st; scan_log := scan_log st |}
      end
    else if String.eqb sfx ".log" then
      match scan_log st with
      | Some _ => Rejected MultipleLogFiles
      | None => Value {| wav_filenames := wav_filenames st;
                         scan_metadata := scan_metadata st;
                         scan_pic := scan_pic st; scan_log := Some item |}
      end
    else if String.eqb sfx ".jpg" || String.eqb sfx ".jpeg" || String.eqb sfx ".png" then
      match scan_pic st with
      | Some _ => Rejected MultipleAlbumPictures
      | None => Value {| wav_filenames := wav_filenames st;
                         scan_metadata := scan_metadata st;
                         scan_pic := Some item; scan_log := scan_log st |}
      end
    else Rejected (FilenameNotExpected (path_name item)).

Fixpoint scan_items (fs : FS) (items : list Path) (st : scan) : outcome scan :=
  match items with
  | [] => Value st
  | item :: rest => st' ← scan_item fs item st; scan_items fs rest st'
  end.

(** The body of the loop over [wav_filenames]. *)
Definition organize_wav (re : list atom) (wav_filename : Path) (lookup : dict)
  : outcome dict :=
  match group_track_num re (path_name wav_filename) with
  | None => Rejected (WavNotInExpectedFormat (path_name wav_filename))
  | Some g =>
      track ← lift (int g);
      match dict_get lookup track with
      | Some prev_track =>
          Rejected (MultipleWavFiles track (path_name prev_track) (path_name wav_filename))
      | None => Value (dict_set lookup track wav_filename)
      end
  end.

Fixpoint organize_wavs (re : list atom) (wavs : list Path) (lookup : dict)
  : outcome dict :=
  match wavs with
  | [] => Value lookup
  | w :: rest => lookup' ← organize_wav re w lookup; organize_wavs re rest lookup'
  end.

(** [metadata_filename.open(encoding="utf-16le")] and [f.readlines()]. *)
Definition readlines (fs : FS) (p : Path) : result (list string) :=
  match fs !! p with
  | Some (File (Some lines)) => Ok lines
  | Some (File None) => Raise UnicodeDecodeError
  | Some Dir => Raise (PermissionError p)
  | None => Raise (FileNotFoundError p)
  end.

(** The loop over [enumerate(lines)]; [index] counts from 0 and the warning
    gives [index + 1]. *)
Fixpoint parse_lines (index : nat) (lines : list string)
    (acc : list _TrackMetadata) : outcome (list _TrackMetadata) :=
  match lines with
  | [] => Value acc
  | line :: rest =>
      match from_tab_delimited_line line with
      | Raise ex => Rejected (InvalidMetadata ex (index + 1))
      | Ok track_metadata => parse_lines (S index) rest (acc ++ [track_metadata])%list
      end
  end.

(** [_Album.from_directory], for the regular expression [re] of the
    implementation and [items], the entries in the order in which
    [directory.iterdir()] gives them. *)
Definition from_directory_with (re : list atom) (fs : FS) (items : list Path)
    (directory : Path) : outcome _Album :=
  st ← scan_items fs items scan_empty;
  match wav_filenames st with
  | [] => Rejected NoWavFiles
  | _ =>
      match scan_metadata st with
      | None => Rejected NoMetadataFile
      | Some metadata =>
          lookup ← organize_wavs re (wav_filenames st) [];
          lines ← lift (readlines fs metadata);
          trks ← parse_lines 0 lines [];
          Value {| source_dir := directory;
                   tracks := trks;
                   album_pic := scan_pic st;
                   metadata_filename := Some metadata;
                   log_filename := scan_log st;
                   wav_lookup := lookup |}
      end
  end.

Definition from_directory := from_directory_with wav_regex.

(** [str(n)] for an integer. The integers of a record are results of
    [int], hence within the digit limit that [str] has as well. *)
Definition str_of_int (n : Z) : string := NilZero.string_of_int (Z.to_int n).

(** [_Album.name]: reads the first track. *)
Definition name (album : _Album) : result string :=
  match tracks album with
  | [] => Raise IndexError
  | t :: _ =>
      Ok (album_artist t +:+ " - " +:+ str_of_int (year t) +:+ " - " +:+ album_title t)
  end.

(** ** The stages

    [_InvokeResult], the state that the stages change, and the external
    processes. The presentation layer ([DoneManager]) is kept as the list
    of the warnings and errors written to it; progress and verbose lines
    are left out. *)

Inductive _InvokeResult :=
| Skipped
| Success
| Failure.

Inductive message :=
| Warn (w : Warning)
| SkippingDueToEncodingErrors (album_name : string)
| ToolNotAvailable (command_line : string)
| TrackNotFound (track : Z)
| WavFilesNotProcessed (names : list string).

Record world := {
  w_fs : FS;
  w_log : list message;
}.

Definition write (m : message) (w : world) : world :=
  {| w_fs := w_fs w; w_log := (w_log w ++ [m])%list |}.

Definition set_fs (fs : FS) (w : world) : world :=
  {| w_fs := fs; w_log := w_log w |}.

Definition set_lookup (lookup : dict) (album : _Album) : _Album :=
  {| source_dir := source_dir album;
     tracks := tracks album;
     album_pic := album_pic album;
     metadata_filename := metadata_filename album;
     log_filename := log_filename album;
     wav_lookup := lookup |}.

(** Whether a loop body goes on to the next item or returns from the
    function. *)
Inductive flow :=
| Next
| Return (r : _InvokeResult).

Definition dquote : string := String "034"%char EmptyString.
Definition backslash : string := String "092"%char EmptyString.

(** [s.replace('"', r"\"")]. *)
Fixpoint escape_quotes (s : string) : string :=
  match s with
  | EmptyString => EmptyString
  | String a r =>
      if Ascii.eqb a "034"%char then backslash +:+ dquote +:+ escape_quotes r
      else String a (escape_quotes r)
  end.

Definition tag (key value : string) : string :=
  "-T " +:+ dquote +:+ key +:+ "=" +:+ value +:+ dquote.

(** *** The batch

    An album object is known by its identity: the albums of a run are kept
    with the number under which they were created, which stands for
    [id(album)]. The calls of the two closures are recorded as events. *)

Inductive event :=
| EncodeCalled (id : nat)
| EncodeReturned (id : nat) (r : _InvokeResult)
| ArchiveSkipped (id : nat)
| ArchiveCalled (id : nat)
| ArchiveReturned (id : nat) (r : _InvokeResult).

Abbreviation albums_t := (list (nat * _Album)).

Abbreviation encoder_t :=
  (world → _Album → Path → result (_InvokeResult * world * _Album)).
Abbreviation archiver_t :=
  (world → _Album → Path → string → result (_InvokeResult * world)).

Section Program.

(** [str(path)], which depends on the platform. *)
Variable path_str : Path → string.

(** [SubprocessEx.Run] and [SubprocessEx.Stream]: a command line and a
    working directory give an exit code and a new file system. *)
Variable subprocess : string → option Path → FS → Z * FS.

(** The command line of the encoder for one track; [esc] is what is done
    to a value that goes between double quotes. *)
Definition encode_command_line_with (esc : string → string) (binary_name : string)
    (album : _Album) (track : _TrackMetadata) (wav_filename temp_filename : Path)
  : string :=
  join " "
    ([binary_name; "-8"; "--verify";
      tag "ARTIST" (esc (artist track));
      tag "TITLE" (esc (title track));
      tag "ALBUM" (esc (album_title track));
      tag "DATE" (str_of_int (year track));
      tag "TRACKNUMBER" (str_of_int (track_num track));
      tag "GENRE" (esc (genre track));
      tag "COMMENT" (esc (comment track));
      tag "BAND" (esc (album_interpret track));
      tag "ALBUMARTIST" (esc (album_interpret track));
      tag "COMPOSER" (esc (composer track));
      tag "TOTALTRACKS" (str_of_int (num_tracks track));
      dquote +:+ esc (path_str wav_filename) +:+ dquote;
      "--output-name " +:+ dquote +:+ esc (path_str temp_filename) +:+ dquote]
     ++ match album_pic album with
        | Some pic => [dquote +:+ "--picture=" +:+ path_str pic +:+ dquote]
        | None => []
        end)%list.

Definition encode_command_line := encode_command_line_with escape_quotes.

Definition is_data_track (t : string) : bool :=
  String.eqb t "Data" || String.eqb t "Data Track".

(** The body of the loop over [album.tracks] in [Encode]. *)
Definition encode_track (binary_name : string) (album : _Album) (temp_dir : Path)
    (track : _TrackMetadata) (w : world) (lookup : dict)
  : result (flow * world * dict) :=
  let '(popped, lookup') := dict_pop lookup (track_num track) in
  match popped with
  | None =>
      if is_data_track (title track) then Ok (Next, w, lookup')
      else Ok (Return Failure, write (TrackNotFound (track_num track)) w, lookup')
  | Some wav_filename =>
      let temp_filename := path_join temp_dir ("temp_" +:+ str_of_int (track_num track)) in
      fs1 ← unlink_missing_ok temp_filename (w_fs w);
      let command_line :=
        encode_command_line binary_name album track wav_filename temp_filename in
      let '(code, fs2) := subprocess command_line None fs1 in
      if negb (Z.eqb code 0) then Ok (Return Failure, set_fs fs2 w, lookup')
      else
        flac ← with_suffix wav_filename ".flac";
        fs3 ← rename temp_filename (path_join temp_dir (path_name flac)) fs2;
        Ok (Next, set_fs fs3 w, lookup')
  end.

Fixpoint encode_tracks (binary_name : string) (album : _Album) (temp_dir : Path)
    (trks : list _TrackMetadata) (w : world) (lookup : dict)
  : result (flow * world * dict) :=
  match trks with
  | [] => Ok (Next, w, lookup)
  | track :: rest =>
      '(fl, w', lookup') ← encode_track binary_name album temp_dir track w lookup;
      match fl with
      | Return r => Ok (Return r, w', lookup')
      | Next => encode_tracks binary_name album temp_dir rest w' lookup'
      end
  end.

(** The copy of the album art in [Encode]. *)
Definition copy_album_art (album : _Album) (temp_dir : Path) (fs : FS) : result FS :=
  match album_pic album with
  | Some pic =>
      let temp_filename := path_join temp_dir "album_art.temp" in
      fs1 ← unlink_missing_ok temp_filename fs;
      fs2 ← copy pic temp_filename fs1;
      rename temp_filename (path_join temp_dir (path_name pic)) fs2
  | None => Ok fs
  end.

(** [Encode], the closure that [_GetEncoder] returns. The album comes back
    with the [wav_lookup] that the loop has left. *)
Definition Encode (binary_name : string) (w : world) (album : _Album)
    (output_dir : Path) : result (_InvokeResult * world * _Album) :=
  if is_dir (w_fs w) output_dir then Ok (Skipped, w, album)
  else
    temp_dir ← with_suffix output_dir ".tmp";
    let fs1 := if is_dir (w_fs w) temp_dir then rmtree temp_dir (w_fs w) else w_fs w in
    fs2 ← mkdir_parents temp_dir fs1;
    '(fl, w3, lookup) ←
      encode_tracks binary_name album temp_dir (tracks album) (set_fs fs2 w)
        (wav_lookup album);
    match fl with
    | Return r => Ok (r, w3, set_lookup lookup album)
    | Next =>
        match lookup with
        | _ :: _ =>
            Ok (Failure,
                write (WavFilesNotProcessed (map path_name (dict_values lookup))) w3,
                set_lookup lookup album)
        | [] =>
            fs4 ← copy_album_art album temp_dir (w_fs w3);
            fs5 ← rename temp_dir output_dir fs4;
            Ok (Success, set_fs fs5 w3, set_lookup lookup album)
        end
    end.

(** [Archive], the closure that [_GetArchiver] returns. *)
Definition Archive (binary_name : string) (w : world) (album : _Album)
    (output_dir : Path) (output_name : string) : result (_InvokeResult * world) :=
  let output_filename := path_join output_dir (output_name +:+ ".7z") in
  if is_file (w_fs w) output_filename then Ok (Skipped, w)
  else
    temp_filename ← with_suffix output_filename ".7z_temp";
    fs1 ← unlink_missing_ok temp_filename (w_fs w);
    let archive_command :=
      binary_name +:+ " a -t7z -mx9 -sccUTF-8 -scsUTF-8 -ssw " +:+ dquote
      +:+ path_str temp_filename +:+ dquote in
    let '(code, fs2) := subprocess archive_command (Some (source_dir album)) fs1 in
    if negb (Z.eqb code 0) then Ok (Failure, set_fs fs2 w)
    else
      let validate_command :=
        binary_name +:+ " t " +:+ dquote +:+ path_str temp_filename +:+ dquote in
      let '(code', fs3) := subprocess validate_command None fs2 in
      if negb (Z.eqb code' 0) then Ok (Failure, set_fs fs3 w)
      else
        fs4 ← rename temp_filename output_filename fs3;
        Ok (Success, set_fs fs4 w).

(** [directory.iterdir()] in the order of the platform. *)
Variable iterdir : FS → Path → list Path.

(** [os.name]. *)
Variable os_name : string.

(** The loop of [_EncodeContent]; [done] holds the albums already gone
    through, as the encoder has left them. When the encoder raises,
    [encode_result] is still [None]: the status text of the step, which is
    computed as the step is left, fails its assertion on it, and the loop
    is left with that [AssertionError] in place of the encoder's
    exception. *)
Fixpoint encode_loop (encoder : encoder_t) (flac_output_dir : Path)
    (input_directory_is_source : bool) (albums : albums_t)
    (w : world) (encode_errors : gset nat) (done : albums_t)
  : list event * result (gset nat * world * albums_t) :=
  match albums with
  | [] => ([], Ok (encode_errors, w, done))
  | (id, album) :: rest =>
      match name album with
      | Raise e => ([], Raise e)
      | Ok _ =>
          let encode_output_dir :=
            if input_directory_is_source then flac_output_dir
            else path_join flac_output_dir (path_name (source_dir album)) in
          match encoder w album encode_output_dir with
          | Raise _ => ([EncodeCalled id], Raise AssertionErrorNone)
          | Ok (encode_result, w', album') =>
              let encode_errors' :=
                match encode_result with
                | Failure => {[id]} ∪ encode_errors
                | _ => encode_errors
                end in
              let '(evs, res) :=
                encode_loop encoder flac_output_dir input_directory_is_source rest
                  w' encode_errors' (done ++ [(id, album')])%list in
              (EncodeCalled id :: EncodeReturned id encode_result :: evs, res)
          end
      end
  end.

(** [_EncodeContent]: the ids of the albums that were not encoded. *)
Definition _EncodeContent (w : world) (flac_output_dir : Path) (albums : albums_t)
    (encoder : encoder_t) (input_directory_is_source : bool)
  : list event * result (gset nat * world * albums_t) :=
  encode_loop encoder flac_output_dir input_directory_is_source albums w ∅ [].

(** [_ArchiveContent]. An exception of the archiver leaves
    [archive_result] at [None], and the step is left with the
    [AssertionError] of its status text, as in [encode_loop]. *)
Fixpoint _ArchiveContent (w : world) (archive_output_dir : Path) (albums : albums_t)
    (archiver : archiver_t) (encode_errors : gset nat)
    (input_directory_is_source : bool) : list event * result world :=
  match albums with
  | [] => ([], Ok w)
  | (id, album) :: rest =>
      match name album with
      | Raise e => ([], Raise e)
      | Ok album_name =>
          if bool_decide (id ∈ encode_errors) then
            let '(evs, res) :=
              _ArchiveContent (write (SkippingDueToEncodingErrors album_name) w)
                archive_output_dir rest archiver encode_errors
                input_directory_is_source in
            (ArchiveSkipped id :: evs, res)
          else
            let output_name :=
              if input_directory_is_source then "archive"
              else path_name (source_dir album) in
            match archiver w album archive_output_dir output_name with
            | Raise _ => ([ArchiveCalled id], Raise AssertionErrorNone)
            | Ok (archive_result, w') =>
                let '(evs, res) :=
                  _ArchiveContent w' archive_output_dir rest archiver encode_errors
                    input_directory_is_source in
                (ArchiveCalled id :: ArchiveReturned id archive_result :: evs, res)
            end
      end
  end.

(** [_GetEncoder]: the closure, or [None] after an error. *)
Definition _GetEncoder (w : world) : world * option encoder_t :=
  let binary_name := "flac" in
  let '(code, fs') := subprocess (binary_name +:+ " --version") None (w_fs w) in
  if negb (Z.eqb code 0) then
    (write (ToolNotAvailable (binary_name +:+ " --version")) (set_fs fs' w), None)
  else (set_fs fs' w, Some (Encode binary_name)).

(** [_GetArchiver]: only Windows is supported. *)
Definition _GetArchiver (w : world) : result (world * option archiver_t) :=
  if String.eqb os_name "nt" then
    let binary_name := "7z" in
    let '(code, fs') := subprocess binary_name None (w_fs w) in
    if negb (Z.eqb code 0) then
      Ok (write (ToolNotAvailable binary_name) (set_fs fs' w), None)
    else Ok (set_fs fs' w, Some (Archive binary_name))
  else Raise NotImplementedError.

(** The directories of a run: the subdirectories of the input directory,
    or the input directory itself when it has none. *)
Definition discover (fs : FS) (input_directory : Path) : list Path * bool :=
  match filter (λ d, is_dir fs d = true) (iterdir fs input_directory) with
  | [] => ([input_directory], true)
  | directories => (directories, false)
  end.

(** The loop over [enumerate(directories)] for the regular expression [re]:
    an album that is found is appended under a new identity. *)
Fixpoint classify_all (re : list atom) (index : nat) (directories : list Path)
    (w : world) (albums : albums_t) : result (world * albums_t) :=
  match directories with
  | [] => Ok (w, albums)
  | directory :: rest =>
      match from_directory_with re (w_fs w) (iterdir (w_fs w) directory) directory with
      | Raised e => Raise e
      | Rejected warning =>
          classify_all re (S index) rest (write (Warn warning) w) albums
      | Value album =>
          classify_all re (S index) rest w (albums ++ [(index, album)])%list
      end
  end.

(** [EntryPoint]: the events of the run, and the world it leaves unless an
    exception ends it. *)
Definition EntryPoint (w : world)
    (input_directory archive_output_dir flac_output_dir : Path)
  : list event * result world :=
  let '(directories, input_directory_is_source) := discover (w_fs w) input_directory in
  match classify_all wav_regex 0 directories w [] with
  | Raise e => ([], Raise e)
  | Ok (w1, []) => ([], Ok w1)
  | Ok (w1, albums) =>
      match _GetEncoder w1 with
      | (w2, None) => ([], Ok w2)
      | (w2, Some encoder) =>
          match _GetArchiver w2 with
          | Raise e => ([], Raise e)
          | Ok (w3, None) => ([], Ok w3)
          | Ok (w3, Some archiver) =>
              match _EncodeContent w3 flac_output_dir albums encoder
                      input_directory_is_source with
              | (evs, Raise e) => (evs, Raise e)
              | (evs, Ok (encode_errors, w4, albums')) =>
                  let '(evs', res) :=
                    _ArchiveContent w4 archive_output_dir albums' archiver
                      encode_errors input_directory_is_source in
                  ((evs ++ evs')%list, res)
              end
          end
      end
  end.

End Program.

(** ** The older implementation

    [ProcessRippedCDs/ProcessRippedCDs.py] has the same parser and the same
    classifier but for its regular expression; its closures return nothing,
    and it archives before it encodes. *)

Module Legacy.

(** [(?P<track_num>\d+).*.wav]: the dot before [wav] is not escaped. *)
Definition wav_regex : list atom :=
  Many Digit 1 :: Many AnyChar 0 :: One AnyChar :: lit "wav".

Definition from_directory := from_directory_with wav_regex.

Section Program.

Variable path_str : Path → string.
Variable subprocess : string → option Path → FS → Z * FS.
Variable iterdir : FS → Path → list Path.
Variable os_name : string.

Definition encode_command_line :=
  encode_command_line_with path_str (λ s, s).

(** The body of the loop over [album.tracks]; [Some] is what is left when
    the body returns from [Encode]. *)
Definition encode_track (binary_name : string) (album : _Album) (temp_dir : Path)
    (track : _TrackMetadata) (w : world) (lookup : dict)
  : result (bool * world * dict) :=
  let '(popped, lookup') := dict_pop lookup (track_num track) in
  match popped with
  | None => Ok (true, write (TrackNotFound (track_num track)) w, lookup')
  | Some wav_filename =>
      let temp_filename := path_join temp_dir ("temp_" +:+ str_of_int (track_num track)) in
      fs1 ← unlink_missing_ok temp_filename (w_fs w);
      let command_line :=
        encode_command_line binary_name album track wav_filename temp_filename in
      let '(code, fs2) := subprocess command_line None fs1 in
      if negb (Z.eqb code 0) then Ok (true, set_fs fs2 w, lookup')
      else
        flac ← with_suffix wav_filename ".flac";
        fs3 ← rename temp_filename (path_join temp_dir (path_name flac)) fs2;
        Ok (false, set_fs fs3 w, lookup')
  end.

Fixpoint encode_tracks (binary_name : string) (album : _Album) (temp_dir : Path)
    (trks : list _TrackMetadata) (w : world) (lookup : dict)
  : result (bool * world * dict) :=
  match trks with
  | [] => Ok (false, w, lookup)
  | track :: rest =>
      '(returned, w', lookup') ← encode_track binary_name album temp_dir track w lookup;
      if (returned : bool) then Ok (true, w', lookup')
      else encode_tracks binary_name album temp_dir rest w' lookup'
  end.

(** [Encode] of the older implementation. *)
Definition Encode (binary_name : string) (w : world) (album : _Album)
    (output_dir : Path) : result (world * _Album) :=
  _ ← name album;
  if is_dir (w_fs w) output_dir then Ok (w, album)
  else
    temp_dir ← with_suffix output_dir ".tmp";
    let fs1 := if is_dir (w_fs w) temp_dir then rmtree temp_dir (w_fs w) else w_fs w in
    fs2 ← mkdir_parents temp_dir fs1;
    '(returned, w3, lookup) ←
      encode_tracks binary_name album temp_dir (tracks album) (set_fs fs2 w)
        (wav_lookup album);
    if (returned : bool) then Ok (w3, set_lookup lookup album)
    else
      match lookup with
      | _ :: _ =>
          Ok (write (WavFilesNotProcessed (map path_name (dict_values lookup))) w3,
              set_lookup lookup album)
      | [] =>
          fs4 ← copy_album_art album temp_dir (w_fs w3);
          fs5 ← rename temp_dir output_dir fs4;
          Ok (set_fs fs5 w3, set_lookup lookup album)
      end.

(** [Archive] of the older implementation. *)
Definition Archive (binary_name : string) (w : world) (album : _Album)
    (output_dir : Path) (output_name : string) : result world :=
  _ ← name album;
  let output_filename := path_join output_dir (output_name +:+ ".7z") in
  if is_file (w_fs w) output_filename then Ok w
  else
    temp_filename ← with_suffix output_filename ".7z_temp";
    fs1 ← unlink_missing_ok temp_filename (w_fs w);
    let archive_command :=
      binary_name +:+ " a -t7z -mx9 -sccUTF-8 -scsUTF-8 -ssw " +:+ dquote
      +:+ path_str temp_filename +:+ dquote in
    let '(code, fs2) := subprocess archive_command (Some (source_dir album)) fs1 in
    if negb (Z.eqb code 0) then Ok (set_fs fs2 w)
    else
      let validate_command :=
        binary_name +:+ " t " +:+ dquote +:+ path_str temp_filename +:+ dquote in
      let '(code', fs3) := subprocess validate_command None fs2 in
      if negb (Z.eqb code' 0) then Ok (set_fs fs3 w)
      else
        fs4 ← rename temp_filename output_filename fs3;
        Ok (set_fs fs4 w).

(** The loop under "Archiving content...". *)
Fixpoint archive_loop (archive_output_dir : Path) (input_directory_is_source : bool)
    (albums : albums_t) (w : world) : list event * result world :=
  match albums with
  | [] => ([], Ok w)
  | (id, album) :: rest =>
      let archive_name :=
        if input_directory_is_source then "archive"
        else path_name (source_dir album) in
      match Archive "7z" w album archive_output_dir archive_name with
      | Raise e => ([ArchiveCalled id], Raise e)
      | Ok w' =>
          let '(evs, res) :=
            archive_loop archive_output_dir input_directory_is_source rest w' in
          (ArchiveCalled id :: evs, res)
      end
  end.

(** The loop under "Encoding content...". *)
Fixpoint encode_loop (flac_output_dir : Path) (input_directory_is_source : bool)
    (albums : albums_t) (w : world) : list event * result world :=
  match albums with
  | [] => ([], Ok w)
  | (id, album) :: rest =>
      let encode_output_dir :=
        if input_directory_is_source then flac_output_dir
        else path_join flac_output_dir (path_name (source_dir album)) in
      match Encode "flac" w album encode_output_dir with
      | Raise e => ([EncodeCalled id], Raise e)
      | Ok (w', _) =>
          let '(evs, res) :=
            encode_loop flac_output_dir input_directory_is_source rest w' in
          (EncodeCalled id :: evs, res)
      end
  end.

(** Whether the tool answers; the closure itself is [Archive "7z"]. *)
Definition _GetArchiver (w : world) : result (world * bool) :=
  if String.eqb os_name "nt" then
    let '(code, fs') := subprocess "7z" None (w_fs w) in
    if negb (Z.eqb code 0) then Ok (write (ToolNotAvailable "7z") (set_fs fs' w), false)
    else Ok (set_fs fs' w, true)
  else Raise NotImplementedError.

(** Whether the tool answers; the closure itself is [Encode "flac"]. *)
Definition _GetEncoder (w : world) : world * bool :=
  let '(code, fs') := subprocess "flac --version" None (w_fs w) in
  if negb (Z.eqb code 0) then
    (write (ToolNotAvailable "flac --version") (set_fs fs' w), false)
  else (set_fs fs' w, true).

(** [EntryPoint] of the older implementation. *)
Definition EntryPoint (w : world)
    (input_directory archive_output_dir flac_output_dir : Path)
  : list event * result world :=
  let '(directories, input_directory_is_source) :=
    discover iterdir (w_fs w) input_directory in
  match classify_all iterdir wav_regex 0 directories w [] with
  | Raise e => ([], Raise e)
  | Ok (w1, []) => ([], Ok w1)
  | Ok (w1, albums) =>
      match _GetArchiver w1 with
      | Raise e => ([], Raise e)
      | Ok (w2, false) => ([], Ok w2)
      | Ok (w2, true) =>
          match _GetEncoder w2 with
          | (w3, false) => ([], Ok w3)
          | (w3, true) =>
              match archive_loop archive_output_dir input_directory_is_source
                      albums w3 with
              | (evs, Raise e) => (evs, Raise e)
              | (evs, Ok w4) =>
                  let '(evs', res) :=
                    encode_loop flac_output_dir input_directory_is_source albums w4 in
                  ((evs ++ evs')%list, res)
              end
          end
      end
  end.

End Program.

End Legacy.

(** * Notions used in the statements *)

(** A loop with early exit over a list: the fold of a step that gives a
    new state, a rejection or an exception. *)
Fixpoint fold_outcome {X S : Type} (f : X → S → outcome S) (l : list X) (s : S)
  : outcome S :=
  match l with
  | [] => Value s
  | x :: rest => s' ← f x s; fold_outcome f rest s'
  end.

(** Two outcomes agree but for the reason of a failure: both are values,
    related by [R], or neither is. *)
Definition sim {S : Type} (R : S → S → Prop) (o o' : outcome S) : Prop :=
  match o, o' with
  | Value s, Value s' => R s s'
  | Value _, _ | _, Value _ => False
  | _, _ => True
  end.

Definition tab_free (s : string) : Prop := count_char tab s = 0.

(** The scans of two orders: the same files in each role, the wav files in
    another order. *)
Definition scan_equiv (st st' : scan) : Prop :=
  wav_filenames st ≡ₚ wav_filenames st'
  ∧ scan_metadata st = scan_metadata st'
  ∧ scan_pic st = scan_pic st'
  ∧ scan_log st = scan_log st'.

(** The role that the first loop gives to an entry. *)
Inductive role :=
| NotAFile | Wav | Metadata | Log | Picture | Unexpected.

Definition role_of (fs : FS) (item : Path) : role :=
  if negb (is_file fs item) then NotAFile
  else
    let sfx := path_suffix item in
    if String.eqb sfx ".wav" then Wav
    else if String.eqb sfx ".txt" then Metadata
    else if String.eqb sfx ".log" then Log
    else if String.eqb sfx ".jpg" || String.eqb sfx ".jpeg" || String.eqb sfx ".png"
         then Picture
         else Unexpected.

(** Two albums are equal when their attributes are, the dictionaries as
    dictionaries. *)
Definition album_eq (a a' : _Album) : Prop :=
  source_dir a = source_dir a'
  ∧ tracks a = tracks a'
  ∧ album_pic a = album_pic a'
  ∧ metadata_filename a = metadata_filename a'
  ∧ log_filename a = log_filename a'
  ∧ dict_eq (wav_lookup a) (wav_lookup a').

(** The rejections that are found after the two loops over the entries. *)
Definition order_free (w : Warning) : bool :=
  match w with
  | NoWavFiles | NoMetadataFile | InvalidMetadata _ _ => true
  | _ => false
  end.

Definition accepted {A} (o : outcome A) : bool :=
  match o with
  | Value _ => true
  | _ => false
  end.

Definition is_encode_event (e : event) : bool :=
  match e with
  | EncodeCalled _ | EncodeReturned _ _ => true
  | _ => false
  end.

Definition is_archive_event (e : event) : bool := negb (is_encode_event e).

(** The albums for which the encoder was called, in the order of the calls. *)
Definition encode_calls (evs : list event) : list nat :=
  omap (λ e, match e with EncodeCalled id => Some id | _ => None end) evs.

Definition ids (albums : albums_t) : list nat := map fst albums.

(** * Inputs for the examples *)

(** A metadata line of 16 items. *)
Definition sample_line : string :=
  join (String tab "")
    ["Blue in Green"; "Miles Davis"; "3"; "5:37"; ""; "Kind of Blue";
     "Miles Davis"; ""; "Miles Davis"; "1959"; "Jazz"; "first  pressing";
     "5"; "0"; "freedb"; "3e0a1b05"] ++ String newline "".

Definition ok_or {A} (d : A) (r : result A) : A :=
  match r with
  | Ok a => a
  | Raise _ => d
  end.

Definition empty_metadata_fs : FS :=
  <[ ["rip"; "album"; "01 - Intro.wav"] := File None ]>
  (<[ ["rip"; "album"; "album.txt"] := File (Some []) ]>
  (<[ ["rip"; "album"] := Dir ]>
  (<[ ["rip"] := Dir ]> ∅))).

Definition empty_metadata_album : _Album :=
  {| source_dir := ["rip"; "album"];
     tracks := [];
     album_pic := None;
     metadata_filename := Some ["rip"; "album"; "album.txt"];
     log_filename := None;
     wav_lookup := [(1%Z, ["rip"; "album"; "01 - Intro.wav"])] |}.

Definition mixed_fs : FS :=
  <[ ["rip"; "album"; "covers"] := Dir ]>
  (<[ ["rip"; "album"; "notes.doc"] := File None ]>
  (<[ ["rip"; "album"] := Dir ]>
  (<[ ["rip"] := Dir ]> ∅))).

(** [str(path)] on Windows, without the drive. *)
Definition demo_path_str (p : Path) : string := backslash +:+ join backslash p.

Definition demo_track (n : Z) (t : string) : _TrackMetadata :=
  {| title := t; artist := "Miles Davis"; track_num := n; track_length := "5:37";
     composer := ""; album_title := "Kind of Blue"; album_artist := "Miles Davis";
     album_composer := ""; album_interpret := "Miles Davis"; year := 1959;
     genre := "Jazz"; comment := ""; num_tracks := 2; track_offset := 0;
     cd_db_type := "freedb"; cd_db_id := "3e0a1b05" |}.

Definition demo_line (n t : string) : string :=
  join (String tab "")
    [t; "Miles Davis"; n; "5:37"; ""; "Kind of Blue"; "Miles Davis"; "";
     "Miles Davis"; "1959"; "Jazz"; ""; "2"; "0"; "freedb"; "3e0a1b05"]
  +:+ String newline "".

(** One album directory with two tracks below [rip]. *)
Definition demo_fs : FS :=
  <[ ["rip"; "album"; "01 - So What.wav"] := File None ]>
  (<[ ["rip"; "album"; "02 - Blue in Green.wav"] := File None ]>
  (<[ ["rip"; "album"; "album.txt"] :=
        File (Some [demo_line "1" "So What"; demo_line "2" "Blue in Green"]) ]>
  (<[ ["rip"; "album"] := Dir ]>
  (<[ ["rip"] := Dir ]>
  (<[ ["archive"] := Dir ]> ∅))))).

Definition demo_iterdir (fs : FS) (p : Path) : list Path :=
  if bool_decide (p = ["rip"]) then [["rip"; "album"]]
  else if bool_decide (p = ["rip"; "album"]) then
    [["rip"; "album"; "01 - So What.wav"]; ["rip"; "album"; "album.txt"];
     ["rip"; "album"; "02 - Blue in Green.wav"]]
  else [].

(** Tools that work: the encoder writes the output file of the track, which
    the command line names, below [temp_dir]; the archiver writes its
    archive. *)
Definition working_tools (temp_dir : Path) (command_line : string)
    (cwd : option Path) (fs : FS) : Z * FS :=
  if String.prefix "flac -8" command_line then
    match String.index 0 "temp_1" command_line with
    | Some _ => (0%Z, <[ (temp_dir ++ ["temp_1"])%list := File None ]> fs)
    | None => (0%Z, <[ (temp_dir ++ ["temp_2"])%list := File None ]> fs)
    end
  else if String.prefix "7z a" command_line then
    (0%Z, <[ ["archive"; "album.7z_temp"] := File None ]> fs)
  else (0%Z, fs).

Definition demo_subprocess := working_tools ["flac"; "album.tmp"].

(** The archiver works and the encoder fails. *)
Definition failing_encoder (command_line : string) (cwd : option Path) (fs : FS)
  : Z * FS :=
  if String.prefix "flac -8" command_line then (1%Z, fs)
  else if String.prefix "7z a" command_line then
    (0%Z, <[ ["archive"; "album.7z_temp"] := File None ]> fs)
  else (0%Z, fs).

Definition demo_world : world := {| w_fs := demo_fs; w_log := [] |}.

Definition demo_album : _Album :=
  {| source_dir := ["rip"; "album"];
     tracks := [demo_track 1 "So What"; demo_track 2 "Blue in Green"];
     album_pic := None;
     metadata_filename := Some ["rip"; "album"; "album.txt"];
     log_filename := None;
     wav_lookup := [(1%Z, ["rip"; "album"; "01 - So What.wav"]);
                    (2%Z, ["rip"; "album"; "02 - Blue in Green.wav"])] |}.

(** The album with a wav file more, for a track 7 that the metadata does
    not have. *)
Definition extra_wav_album : _Album :=
  set_lookup
    (wav_lookup demo_album ++ [(7%Z, ["rip"; "album"; "07 - Extra.wav"])])%list
    demo_album.

(** The file system after a first, successful run of [Encode]. *)
Definition encoded_world : world :=
  (ok_or (Skipped, demo_world, demo_album)
     (Encode demo_path_str demo_subprocess "flac" demo_world demo_album
        ["flac"; "album"])).1.2.

Definition extra_wav_fs2 : FS :=
  ok_or ∅ (mkdir_parents ["flac"; "album.tmp"] demo_fs).

Definition extra_wav_loop : flow * world * dict :=
  ok_or (Next, demo_world, [])
    (encode_tracks demo_path_str demo_subprocess "flac" extra_wav_album
       ["flac"; "album.tmp"] (tracks extra_wav_album)
       (set_fs extra_wav_fs2 demo_world) (wav_lookup extra_wav_album)).

(** * Further notions used in the statements *)

(** The attributes of a track that are text, in the order of the record. *)
Definition text_fields (t : _TrackMetadata) : list string :=
  [title t; artist t; track_length t; composer t; album_title t; album_artist t;
   album_composer t; album_interpret t; genre t; comment t; cd_db_type t;
   cd_db_id t].

(** Whether a string ends in the character. *)
Fixpoint ends_with (c : ascii) (s : string) : bool :=
  match s with
  | EmptyString => false
  | String a EmptyString => Ascii.eqb a c
  | String _ r => ends_with c r
  end.

(** Whether every double quote of a string comes directly after a
    backslash; [after_backslash] says whether the character before the
    string is one. *)
Fixpoint quotes_escaped (after_backslash : bool) (s : string) : bool :=
  match s with
  | EmptyString => true
  | String a r =>
      if Ascii.eqb a "034"%char then after_backslash && quotes_escaped false r
      else quotes_escaped (Ascii.eqb a "092"%char) r
  end.

(** The string without the backslash before each double quote. *)
Fixpoint unescape_quotes (s : string) : string :=
  match s with
  | EmptyString => EmptyString
  | String a r =>
      match r with
      | String b r' =>
          if Ascii.eqb a "092"%char && Ascii.eqb b "034"%char
          then String b (unescape_quotes r')
          else String a (unescape_quotes r)
      | EmptyString => String a EmptyString
      end
  end.

#[global] Instance role_eq_dec : EqDecision role.
Proof. solve_decision. Defined.

(** The entries of a listing that have a role, in the order of the
    listing. *)
Definition with_role (fs : FS) (r : role) (items : list Path) : list Path :=
  filter (λ item, role_of fs item = r) items.

(** The track number that the second loop of [from_directory] reads off
    the name of a wav file. *)
Definition wav_track_num (re : list atom) (name : string) : option Z :=
  match group_track_num re name with
  | Some g => int_of_str g
  | None => None
  end.

(** [d.keys()]. *)
Definition dict_keys (d : dict) : list Z := map fst d.

(** * Further inputs for the examples *)

(** The demo directory with a second metadata line that is not a track. *)
Definition bad_line_fs : FS :=
  <[ ["rip"; "album"; "album.txt"] :=
       File (Some [demo_line "1" "So What"; "Blue in Green"]) ]> demo_fs.

(** The demo album with a third track, for which there is no wav file. *)
Definition missing_wav_album : _Album :=
  {| source_dir := source_dir demo_album;
     tracks := (tracks demo_album ++ [demo_track 5 "Flamenco Sketches"])%list;
     album_pic := None;
     metadata_filename := metadata_filename demo_album;
     log_filename := None;
     wav_lookup := wav_lookup demo_album |}.

(** [output_dir / f"{output_name}.7z"] in [Archive]. *)
Definition archive_filename (output_dir : Path) (output_name : string) : Path :=
  path_join output_dir (output_name +:+ ".7z").

(** An archiver that fails and writes nothing. *)
Definition failing_archiver (command_line : string) (cwd : option Path) (fs : FS)
  : Z * FS :=
  if String.prefix "7z a" command_line then (2%Z, fs) else (0%Z, fs).

(** The albums that the archive phase came to, skipped or archived, in the
    order of the events. *)
Definition archive_handled (evs : list event) : list nat :=
  omap (λ e, match e with
             | ArchiveSkipped id | ArchiveCalled id => Some id
             | _ => None
             end) evs.

(** A platform on which no directory has an entry. *)
Definition empty_iterdir (fs : FS) (p : Path) : list Path := [].

Definition empty_world : world := {| w_fs := ∅; w_log := [] |}.

(** A platform on which every process exits with 1 and changes nothing. *)
Definition always_failing (command_line : string) (cwd : option Path) (fs : FS)
  : Z * FS := (1%Z, fs).

(** * Properties *)

Open Scope nat_scope.

(** ** Strings *)

Lemma append_nil (t : string) : EmptyString +:+ t = t.
Proof. reflexivity. Qed.

Lemma append_cons (a : ascii) (s t : string) :
  String a s +:+ t = String a (s +:+ t).
Proof. reflexivity. Qed.

Ltac norm_append := rewrite ?append_cons, ?append_nil.

Lemma length_split (c : ascii) (s : string) :
  length (split c s) = S (count_char c s).
Proof.
  induction s as [|a s IH]; simpl; [reflexivity|].
  destruct (Ascii.eqb a c); simpl; [now rewrite IH|].
  destruct (split c s) as [|h t]; simpl in *; congruence.
Qed.

Lemma count_char_app (c : ascii) (s t : string) :
  count_char c (s +:+ t) = count_char c s + count_char c t.
Proof.
  induction s as [|a s IH]; norm_append; simpl; [reflexivity|]. rewrite IH. lia.
Qed.

Lemma count_rstrip_le (c d : ascii) (s : string) :
  count_char d (rstrip c s) ≤ count_char d s.
Proof.
  induction s as [|a s IH]; simpl; [lia|].
  destruct (rstrip c s) as [|b r] eqn:E.
  - destruct (Ascii.eqb a c); simpl in *; lia.
  - simpl in *. lia.
Qed.

Lemma rstrip_app_same (c : ascii) (s : string) :
  rstrip c (s +:+ String c EmptyString) = rstrip c s.
Proof.
  induction s as [|a s IH]; norm_append; simpl.
  - now rewrite Ascii.eqb_refl.
  - now rewrite IH.
Qed.

Lemma rstrip_app_other (c a : ascii) (s : string) :
  a ≠ c → rstrip c (s +:+ String a EmptyString) = s +:+ String a EmptyString.
Proof.
  intros Hne. induction s as [|b s IH]; norm_append; simpl.
  - destruct (Ascii.eqb_spec a c); [contradiction|reflexivity].
  - rewrite IH. destruct s; reflexivity.
Qed.

Lemma string_app_assoc (s t u : string) : (s +:+ t) +:+ u = s +:+ (t +:+ u).
Proof. induction s as [|a s IH]; norm_append; [reflexivity|]. now rewrite IH. Qed.

Lemma string_app_empty_r (s : string) : s +:+ EmptyString = s.
Proof. induction s as [|a s IH]; norm_append; [reflexivity|]. now rewrite IH. Qed.

Lemma join_cons (sep x : string) (rest : list string) :
  rest ≠ [] → join sep (x :: rest) = x +:+ sep +:+ join sep rest.
Proof. destruct rest; [congruence|reflexivity]. Qed.

Lemma join_snoc (sep x : string) (l : list string) :
  l ≠ [] → join sep (l ++ [x]) = join sep l +:+ sep +:+ x.
Proof.
  induction l as [|y l IH]; [congruence|]. intros _.
  destruct l as [|z l].
  - reflexivity.
  - change (join sep ((y :: z :: l) ++ [x]))
      with (y +:+ sep +:+ join sep ((z :: l) ++ [x])).
    rewrite IH by congruence.
    change (join sep (y :: z :: l)) with (y +:+ sep +:+ join sep (z :: l)).
    now rewrite !string_app_assoc.
Qed.

Lemma count_join_tab (fs : list string) :
  Forall tab_free fs → count_char tab (join (String tab EmptyString) fs) = length fs - 1.
Proof.
  induction 1 as [|x l Hx Hl IH]; [reflexivity|].
  destruct l as [|y l].
  - simpl. rewrite Hx. reflexivity.
  - rewrite join_cons by congruence. rewrite !count_char_app, Hx, IH.
    simpl. lia.
Qed.

Lemma split_app_free (c : ascii) (x s : string) :
  count_char c x = 0 →
  split c (x +:+ String c s) = x :: split c s.
Proof.
  induction x as [|a x IH]; norm_append; simpl.
  - now rewrite Ascii.eqb_refl.
  - destruct (Ascii.eqb a c); [lia|]. simpl. intros H. now rewrite (IH H).
Qed.

Lemma split_free (c : ascii) (x : string) :
  count_char c x = 0 → split c x = [x].
Proof.
  induction x as [|a x IH]; simpl; [reflexivity|].
  destruct (Ascii.eqb a c); [lia|]. simpl. intros H. now rewrite (IH H).
Qed.

(** Splitting undoes joining when no item holds a tab. *)
Lemma split_join_tab (fs : list string) :
  fs ≠ [] → Forall tab_free fs →
  split tab (join (String tab EmptyString) fs) = fs.
Proof.
  intros Hne H. induction H as [|x l Hx Hl IH]; [congruence|].
  destruct l as [|y l].
  - simpl. now apply split_free.
  - rewrite join_cons by congruence.
    change (String tab EmptyString +:+ ?s) with (String tab s).
    rewrite split_app_free by exact Hx. now rewrite IH.
Qed.

(** ** The track parser *)

Lemma int_digit_limit (s : string) :
  (int_max_str_digits < count_digits (rstrip_space (lstrip_space s)))%Z →
  int s = Raise (ValueError s).
Proof.
  intros H. apply Z.ltb_lt in H. unfold int, int_of_str. cbv zeta.
  rewrite H. reflexivity.
Qed.

Lemma assertion_fails (line : string) :
  length (line_items line) ≠ 16 →
  from_tab_delimited_line line
  = Raise (AssertionError (length (line_items line))
             (rstrip tab (rstrip newline line))).
Proof.
  intros H. unfold from_tab_delimited_line, line_items in *.
  destruct (Nat.eqb_spec (length (split tab (rstrip tab (rstrip newline line)))) 16);
    [contradiction|reflexivity].
Qed.

(** C5. A line whose items, after the trailing newlines and then the trailing
    tabs are stripped and the rest is split on tabs, are not 16 in number
    makes the parser raise; no record is built. *)
Theorem from_tab_delimited_line_arity (line : string) :
  length (line_items line) ≠ 16 →
  from_tab_delimited_line line
  = Raise (AssertionError (length (line_items line))
             (rstrip tab (rstrip newline line))).
Proof. exact (assertion_fails line). Qed.

Lemma from_tab_delimited_line_arity_witness :
  from_tab_delimited_line "Blue in Green"
  = Raise (AssertionError 1 "Blue in Green").
Proof.
  apply (from_tab_delimited_line_arity "Blue in Green"). vm_compute. lia.
Defined.

(** C4. When a line splits into the 16 items [f0 .. f15], and the items 2,
    9, 12 and 13 are integers, the record holds item [i] in its attribute
    number [i], the four integers parsed and the other items as they are;
    when one of the four is not an integer the parser raises
    [ValueError]. *)
Theorem from_tab_delimited_line_fields
    (line f0 f1 f2 f3 f4 f5 f6 f7 f8 f9 f10 f11 f12 f13 f14 f15 : string) :
  line_items line
  = [f0; f1; f2; f3; f4; f5; f6; f7; f8; f9; f10; f11; f12; f13; f14; f15] →
  match int_of_str f2, int_of_str f9, int_of_str f12, int_of_str f13 with
  | Some tn, Some yr, Some nt, Some off =>
      from_tab_delimited_line line
      = Ok {| title := f0; artist := f1; track_num := tn; track_length := f3;
              composer := f4; album_title := f5; album_artist := f6;
              album_composer := f7; album_interpret := f8; year := yr;
              genre := f10; comment := f11; num_tracks := nt;
              track_offset := off; cd_db_type := f14; cd_db_id := f15 |}
  | _, _, _, _ =>
      ∃ literal, literal ∈ [f2; f9; f12; f13]
                 ∧ from_tab_delimited_line line = Raise (ValueError literal)
  end.
Proof.
  intros H. unfold from_tab_delimited_line. unfold line_items in H.
  rewrite H. cbn [length Nat.eqb negb item nth].
  unfold int.
  destruct (int_of_str f2) as [tn|]; cbn;
    [|exists f2; split; [set_solver|reflexivity]].
  destruct (int_of_str f9) as [yr|]; cbn;
    [|exists f9; split; [set_solver|reflexivity]].
  destruct (int_of_str f12) as [nt|]; cbn;
    [|exists f12; split; [set_solver|reflexivity]].
  destruct (int_of_str f13) as [off|]; cbn;
    [|exists f13; split; [set_solver|reflexivity]].
  reflexivity.
Qed.

Lemma from_tab_delimited_line_fields_witness :
  from_tab_delimited_line sample_line
  = Ok {| title := "Blue in Green"; artist := "Miles Davis"; track_num := 3;
          track_length := "5:37"; composer := ""; album_title := "Kind of Blue";
          album_artist := "Miles Davis"; album_composer := "";
          album_interpret := "Miles Davis"; year := 1959; genre := "Jazz";
          comment := "first  pressing"; num_tracks := 5; track_offset := 0;
          cd_db_type := "freedb"; cd_db_id := "3e0a1b05" |}.
Proof.
  exact (from_tab_delimited_line_fields sample_line
           "Blue in Green" "Miles Davis" "3" "5:37" "" "Kind of Blue"
           "Miles Davis" "" "Miles Davis" "1959" "Jazz" "first  pressing"
           "5" "0" "freedb" "3e0a1b05" eq_refl).
Defined.

(** The serialization of 16 items, none with a tab or a newline and the
    last one not empty, splits back into the same items. *)
Lemma line_items_join (fs : list string) (l : string) (a : ascii) :
  Forall tab_free fs → tab_free l → a ≠ tab → a ≠ newline →
  line_items
    (join (String tab EmptyString) (fs ++ [l +:+ String a EmptyString])%list
     +:+ String newline EmptyString)
  = (fs ++ [l +:+ String a EmptyString])%list.
Proof.
  intros Hfs Hl Ht Hn.
  unfold line_items.
  assert (Hend : ∃ t, join (String tab EmptyString)
                        (fs ++ [l +:+ String a EmptyString])%list
                      = t +:+ String a EmptyString).
  { destruct fs as [|x fs'].
    - exists l. reflexivity.
    - rewrite join_snoc by congruence. eexists.
      rewrite <- !string_app_assoc. reflexivity. }
  destruct Hend as [t Et]. rewrite Et.
  rewrite rstrip_app_same, rstrip_app_other, rstrip_app_other by assumption.
  rewrite <- Et. apply split_join_tab.
  - destruct fs; simpl; congruence.
  - apply Forall_app. split; [exact Hfs|]. constructor; [|constructor].
    unfold tab_free. rewrite count_char_app, Hl. simpl.
    destruct (Ascii.eqb_spec a tab); [contradiction|reflexivity].
Qed.

(** C10. The serialization of 16 items of which the last is empty ends in a
    tab; the tab is stripped with the newline, fewer than 16 items are left,
    and the parser raises. *)
Theorem from_tab_delimited_line_empty_last (fs : list string) (eol : string) :
  length fs = 16 → Forall tab_free fs → item fs 15 = EmptyString →
  eol = EmptyString ∨ eol = String newline EmptyString →
  ∃ n line', n < 16 ∧
    from_tab_delimited_line (join (String tab EmptyString) fs +:+ eol)
    = Raise (AssertionError n line').
Proof.
  intros Hlen Hfree Hlast Heol.
  do 16 (destruct fs as [|? fs]; [simpl in Hlen; lia|]).
  destruct fs; [|simpl in Hlen; lia].
  unfold item in Hlast. simpl in Hlast. subst s14.
  match goal with
  | |- context [join _ ?l] =>
      match l with
      | [?a0; ?a1; ?a2; ?a3; ?a4; ?a5; ?a6; ?a7; ?a8; ?a9; ?a10; ?a11; ?a12; ?a13; ?a14; _] =>
          change l with
            ([a0; a1; a2; a3; a4; a5; a6; a7; a8; a9; a10; a11; a12; a13; a14]
             ++ [EmptyString])%list in *
      end
  end.
  apply Forall_app in Hfree as [Hfree _].
  rewrite join_snoc by congruence.
  set (body := join (String tab EmptyString) _) in *.
  assert (Hcount : count_char tab body = 14)
    by (unfold body; rewrite count_join_tab by exact Hfree; reflexivity).
  assert (Hstrip : rstrip tab (rstrip newline
             ((body +:+ String tab EmptyString +:+ EmptyString) +:+ eol))
           = rstrip tab body).
  { rewrite string_app_empty_r.
    destruct Heol as [-> | ->].
    - rewrite string_app_empty_r, rstrip_app_other by discriminate.
      apply rstrip_app_same.
    - rewrite rstrip_app_same, rstrip_app_other by discriminate.
      apply rstrip_app_same. }
  assert (Hn : length (line_items
             ((body +:+ String tab EmptyString +:+ EmptyString) +:+ eol)) < 16).
  { unfold line_items. rewrite Hstrip, length_split.
    pose proof (count_rstrip_le tab tab body). lia. }
  eexists _, _. split; [exact Hn|].
  apply assertion_fails. lia.
Qed.

Lemma from_tab_delimited_line_empty_last_witness :
  ∃ n line', n < 16 ∧
    from_tab_delimited_line
      (join (String tab EmptyString)
         ["Blue in Green"; "Miles Davis"; "3"; "5:37"; ""; "Kind of Blue";
          "Miles Davis"; ""; "Miles Davis"; "1959"; "Jazz"; "first  pressing";
          "5"; "0"; "freedb"; ""] +:+ String newline EmptyString)
    = Raise (AssertionError n line').
Proof.
  apply (from_tab_delimited_line_empty_last
           ["Blue in Green"; "Miles Davis"; "3"; "5:37"; ""; "Kind of Blue";
            "Miles Davis"; ""; "Miles Davis"; "1959"; "Jazz"; "first  pressing";
            "5"; "0"; "freedb"; ""] (String newline EmptyString)).
  - reflexivity.
  - repeat constructor.
  - reflexivity.
  - right. reflexivity.
Defined.

(** ** The track number of a wav file *)

(** A name that does not start with a digit matches neither pattern. *)
Lemma no_leading_digit_no_match (rest : list atom) (name : string) :
  run_length Digit name = 0 →
  group_track_num (Many Digit 1 :: rest) name = None.
Proof.
  intros H. unfold group_track_num. simpl. rewrite H. reflexivity.
Qed.

Lemma no_leading_digit_rejected (re_rest : list atom) (dir : Path) (name : string)
    (lookup : dict) :
  name ≠ EmptyString →
  run_length Digit name = 0 →
  organize_wav (Many Digit 1 :: re_rest) (dir ++ [name])%list lookup
  = Rejected (WavNotInExpectedFormat name).
Proof.
  intros Hne H. unfold organize_wav.
  assert (Hn : path_name (dir ++ [name])%list = name).
  { unfold path_name. apply List.last_last. }
  rewrite Hn, (no_leading_digit_no_match re_rest name H). reflexivity.
Qed.

(** C2. In the current implementation "3 - Track.wav" gives the track
    number 3 and "Track.wav" is rejected, but "03.wav" gives the track
    number 0: after the digits the pattern wants one more character before
    ".wav", so the last digit is given back; "3.wav" is rejected for the
    same reason. The pattern of the older implementation gives 3 for
    "03.wav". *)
Theorem wav_regex_track_numbers :
  organize_wav wav_regex ["album"; "3 - Track.wav"] []
  = Value [(3%Z, ["album"; "3 - Track.wav"])]
  ∧ organize_wav wav_regex ["album"; "Track.wav"] []
    = Rejected (WavNotInExpectedFormat "Track.wav")
  ∧ organize_wav wav_regex ["album"; "03.wav"] []
    = Value [(0%Z, ["album"; "03.wav"])]
  ∧ organize_wav wav_regex ["album"; "3.wav"] []
    = Rejected (WavNotInExpectedFormat "3.wav")
  ∧ organize_wav Legacy.wav_regex ["album"; "03.wav"] []
    = Value [(3%Z, ["album"; "03.wav"])].
Proof. repeat split; vm_compute; reflexivity. Qed.

(** ** An empty metadata file *)

(** C3. A directory whose metadata file has no line is not rejected: the
    classifier builds an album without tracks, and reading the name of that
    album raises [IndexError]. *)
Theorem from_directory_empty_metadata :
  from_directory empty_metadata_fs
    [["rip"; "album"; "01 - Intro.wav"]; ["rip"; "album"; "album.txt"]]
    ["rip"; "album"]
  = Value empty_metadata_album
  ∧ tracks empty_metadata_album = []
  ∧ name empty_metadata_album = Raise IndexError.
Proof. repeat split; vm_compute; reflexivity. Qed.

(** The part of the claim that holds: without a metadata file there is no
    album. *)
Lemma from_directory_no_metadata (re : list atom) (fs : FS) (items : list Path)
    (directory : Path) (st : scan) :
  scan_items fs items scan_empty = Value st →
  scan_metadata st = None →
  ∃ w, from_directory_with re fs items directory = Rejected w.
Proof.
  intros Hs Hm. unfold from_directory_with. rewrite Hs. cbn.
  destruct (wav_filenames st); [eauto|]. rewrite Hm. eauto.
Qed.

(** ** Dictionaries *)

Lemma dict_get_set (d : dict) (k k' : Z) (v : Path) :
  dict_get (dict_set d k v) k' = if Z.eqb k k' then Some v else dict_get d k'.
Proof.
  induction d as [|[k0 v0] d IH]; simpl.
  - reflexivity.
  - destruct (Z.eqb_spec k0 k) as [->|Hne]; simpl.
    + destruct (Z.eqb_spec k k'); reflexivity.
    + rewrite IH. destruct (Z.eqb_spec k0 k') as [->|]; [|reflexivity].
      destruct (Z.eqb_spec k k'); [congruence|reflexivity].
Qed.

Lemma dict_pop_get (d : dict) (k : Z) : (dict_pop d k).1 = dict_get d k.
Proof.
  induction d as [|[k0 v0] d IH]; simpl; [reflexivity|].
  destruct (Z.eqb k0 k); [reflexivity|].
  destruct (dict_pop d k). exact IH.
Qed.

(** Popping a key leaves the other keys alone. *)
Lemma dict_pop_other (d : dict) (k k' : Z) :
  k ≠ k' → dict_get (dict_pop d k).2 k' = dict_get d k'.
Proof.
  intros Hne. induction d as [|[k0 v0] d IH]; simpl; [reflexivity|].
  destruct (Z.eqb_spec k0 k) as [->|Hk]; simpl.
  - destruct (Z.eqb_spec k k'); [contradiction|reflexivity].
  - destruct (dict_pop d k) as [r d'] eqn:E. simpl in *.
    destruct (Z.eqb k0 k'); [reflexivity|exact IH].
Qed.

Lemma dict_get_values (d : dict) (k : Z) (p : Path) :
  dict_get d k = Some p → p ∈ dict_values d.
Proof.
  induction d as [|[k0 v0] d IH]; simpl; [discriminate|].
  destruct (Z.eqb k0 k).
  - intros [= ->]. apply list_elem_of_here.
  - intros H. apply list_elem_of_further, IH, H.
Qed.

(** ** The encode stage *)

Section EncodeProperties.

Variable path_str : Path → string.
Variable subprocess : string → option Path → FS → Z * FS.
Variable binary_name : string.

Lemma bind_ok {A B} (r : result A) (k : A → result B) (b : B) :
  r ≫= k = Ok b → ∃ a, r = Ok a ∧ k a = Ok b.
Proof. destruct r; [eauto|discriminate]. Qed.

(** One track takes at most its own number out of the dictionary. *)
Lemma encode_track_lookup album temp_dir track w lookup fl w' lookup' :
  encode_track path_str subprocess binary_name album temp_dir track w lookup
  = Ok (fl, w', lookup') →
  lookup' = (dict_pop lookup (track_num track)).2.
Proof.
  unfold encode_track.
  destruct (dict_pop lookup (track_num track)) as [popped l1]. simpl.
  destruct popped as [wav|].
  - intros H. apply bind_ok in H as (fs1 & _ & H).
    destruct (subprocess _ None fs1) as [code fs2].
    destruct (negb (Z.eqb code 0)); [congruence|].
    apply bind_ok in H as (flac & _ & H).
    apply bind_ok in H as (fs3 & _ & H). congruence.
  - destruct (is_data_track (title track)); congruence.
Qed.

(** A wav file whose number no track has stays in the dictionary through
    the loop. *)
Lemma encode_tracks_unmatched album temp_dir trks : ∀ w lookup fl w' lookup' k p,
  encode_tracks path_str subprocess binary_name album temp_dir trks w lookup
  = Ok (fl, w', lookup') →
  (∀ t, t ∈ trks → track_num t ≠ k) →
  dict_get lookup k = Some p →
  dict_get lookup' k = Some p.
Proof.
  induction trks as [|t trks IH]; simpl; intros w lookup fl w' lookup' k p H Hk Hg.
  - congruence.
  - apply bind_ok in H as ([[fl1 w1] l1] & Ht & H).
    apply encode_track_lookup in Ht as ->.
    assert (Hg1 : dict_get (dict_pop lookup (track_num t)).2 k = Some p).
    { rewrite dict_pop_other; [exact Hg|]. apply Hk, list_elem_of_here. }
    destruct fl1.
    + eapply IH; [exact H| |exact Hg1].
      intros t' Ht'. apply Hk, list_elem_of_further, Ht'.
    + congruence.
Qed.

(** C7. When the output directory is there, [Encode] returns [Skipped]
    with the world and the album as they were: no process is started, no
    file or directory changes, nothing is written, and the [wav_lookup] is
    as before. *)
Theorem Encode_skipped (w : world) (album : _Album) (output_dir : Path) :
  is_dir (w_fs w) output_dir = true →
  Encode path_str subprocess binary_name w album output_dir = Ok (Skipped, w, album).
Proof. intros H. unfold Encode. rewrite H. reflexivity. Qed.

Lemma encode_track_next_log album temp_dir track w lookup w' lookup' :
  encode_track path_str subprocess binary_name album temp_dir track w lookup
  = Ok (Next, w', lookup') →
  w_log w' = w_log w.
Proof.
  unfold encode_track.
  destruct (dict_pop lookup (track_num track)) as [[wav|] l1].
  - intros H. apply bind_ok in H as (fs1 & _ & H).
    destruct (subprocess _ None fs1) as [code fs2].
    destruct (negb (Z.eqb code 0)); [discriminate|].
    apply bind_ok in H as (flac & _ & H).
    apply bind_ok in H as (fs3 & _ & H).
    injection H as <- _. reflexivity.
  - destruct (is_data_track (title track)); [|discriminate].
    intros [= <- _]. reflexivity.
Qed.

Lemma encode_tracks_next_log album temp_dir trks : ∀ w lookup w' lookup',
  encode_tracks path_str subprocess binary_name album temp_dir trks w lookup
  = Ok (Next, w', lookup') →
  w_log w' = w_log w.
Proof.
  induction trks as [|t rest IH]; intros w lookup w' lookup'; simpl.
  - intros [= <- _]. reflexivity.
  - intros H. apply bind_ok in H as ([[fl w1] l1] & Ht & H).
    destruct fl as [|r]; [|discriminate].
    rewrite (IH _ _ _ _ H). eapply encode_track_next_log, Ht.
Qed.

(** C9. When the loop over the tracks ends with wav files left in the
    dictionary, [Encode] returns [Failure] and reports them: the log it
    leaves is the log it was given with one entry more, the error that
    names every file that is left; a wav file whose number no track has
    is among them. The files are as the loop has left them. *)
Theorem Encode_unprocessed_wavs (w : world) (album : _Album)
    (output_dir temp_dir : Path) (fs2 : FS) (w3 : world) (lookup : dict) :
  is_dir (w_fs w) output_dir = false →
  with_suffix output_dir ".tmp" = Ok temp_dir →
  mkdir_parents temp_dir
    (if is_dir (w_fs w) temp_dir then rmtree temp_dir (w_fs w) else w_fs w) = Ok fs2 →
  encode_tracks path_str subprocess binary_name album temp_dir (tracks album)
    (set_fs fs2 w) (wav_lookup album) = Ok (Next, w3, lookup) →
  lookup ≠ [] →
  let names := map path_name (dict_values lookup) in
  Encode path_str subprocess binary_name w album output_dir
  = Ok (Failure,
        {| w_fs := w_fs w3;
           w_log := (w_log w ++ [WavFilesNotProcessed names])%list |},
        set_lookup lookup album)
  ∧ (∀ k p, dict_get lookup k = Some p → path_name p ∈ names)
  ∧ (∀ k p, dict_get (wav_lookup album) k = Some p →
            (∀ t, t ∈ tracks album → track_num t ≠ k) →
            path_name p ∈ names).
Proof.
  intros Hdir Htmp Hmk Hloop Hne names.
  assert (Hin : ∀ k p, dict_get lookup k = Some p → path_name p ∈ names).
  { intros k p Hg. apply list_elem_of_fmap. exists p. split; [reflexivity|].
    eapply dict_get_values, Hg. }
  split; [|split; [exact Hin|]].
  - unfold Encode. rewrite Hdir, Htmp. cbn. rewrite Hmk. cbn. rewrite Hloop. cbn.
    destruct lookup; [congruence|].
    apply encode_tracks_next_log in Hloop. simpl in Hloop.
    unfold write. rewrite Hloop. reflexivity.
  - intros k p Hg Hk. apply (Hin k).
    eapply encode_tracks_unmatched; [exact Hloop|exact Hk|exact Hg].
Qed.

End EncodeProperties.

(** ** Runs on a small file system *)

Lemma Encode_skipped_witness :
  Encode demo_path_str demo_subprocess "flac" demo_world demo_album ["flac"; "album"]
  = Ok (Success, encoded_world, set_lookup [] demo_album)
  ∧ Encode demo_path_str demo_subprocess "flac" encoded_world demo_album
      ["flac"; "album"]
    = Ok (Skipped, encoded_world, demo_album).
Proof.
  split.
  - vm_compute. reflexivity.
  - apply (Encode_skipped demo_path_str demo_subprocess "flac" encoded_world
             demo_album ["flac"; "album"]).
    vm_compute. reflexivity.
Defined.

Lemma Encode_unprocessed_wavs_witness :
  Encode demo_path_str demo_subprocess "flac" demo_world extra_wav_album
    ["flac"; "album"]
  = Ok (Failure,
        {| w_fs := w_fs extra_wav_loop.1.2;
           w_log := [WavFilesNotProcessed ["07 - Extra.wav"]] |},
        set_lookup [(7%Z, ["rip"; "album"; "07 - Extra.wav"])] extra_wav_album).
Proof.
  refine (proj1 (Encode_unprocessed_wavs demo_path_str demo_subprocess "flac"
                   demo_world extra_wav_album ["flac"; "album"]
                   ["flac"; "album.tmp"] extra_wav_fs2 extra_wav_loop.1.2
                   [(7%Z, ["rip"; "album"; "07 - Extra.wav"])] _ _ _ _ _)).
  - vm_compute. reflexivity.
  - vm_compute. reflexivity.
  - vm_compute. reflexivity.
  - vm_compute. reflexivity.
  - discriminate.
Defined.

(** C8. An output directory whose name ends in [.tmp] is its own temporary
    directory: [with_suffix] replaces the suffix of a name that has one.
    [Encode] then makes the output directory itself, and when the encoder
    fails it returns [Failure] with a partial output directory in place; a
    second run finds the directory and returns [Skipped]. *)
Theorem Encode_failure_leaves_output_dir :
  with_suffix ["flac"; "album.tmp"] ".tmp" = Ok ["flac"; "album.tmp"]
  ∧ demo_fs !! ["flac"; "album.tmp"] = None
  ∧ ∃ w' album',
      Encode demo_path_str failing_encoder "flac" demo_world demo_album
        ["flac"; "album.tmp"]
      = Ok (Failure, w', album')
      ∧ is_dir (w_fs w') ["flac"; "album.tmp"] = true
      ∧ Encode demo_path_str failing_encoder "flac" w' album' ["flac"; "album.tmp"]
        = Ok (Skipped, w', album').
Proof.
  split; [vm_compute; reflexivity|]. split; [vm_compute; reflexivity|].
  eexists (set_fs (<[ ["flac"; "album.tmp"] := Dir ]> (<[ ["flac"] := Dir ]> demo_fs))
             demo_world),
          (set_lookup [(2%Z, ["rip"; "album"; "02 - Blue in Green.wav"])] demo_album).
  repeat split; vm_compute; reflexivity.
Qed.

(** The events of the older [EntryPoint] on the demo album when the encoder
    fails: the album is archived, and only then is the encoder called. *)
Lemma Legacy_archives_before_encoding :
  ∃ w',
    Legacy.EntryPoint demo_path_str failing_encoder demo_iterdir "nt" demo_world
      ["rip"] ["archive"] ["flac"]
    = ([ArchiveCalled 0; EncodeCalled 0], Ok w')
    ∧ is_file (w_fs w') ["archive"; "album.7z"] = true
    ∧ is_dir (w_fs w') ["flac"; "album"] = false.
Proof.
  eexists (ok_or demo_world
             (Legacy.EntryPoint demo_path_str failing_encoder demo_iterdir "nt"
                demo_world ["rip"] ["archive"] ["flac"]).2).
  repeat split; vm_compute; reflexivity.
Qed.

(** ** The order of the directory listing *)

Section FoldPermutation.

Context {X S : Type}.
Variable f : X → S → outcome S.
Variable R : S → S → Prop.

Local Abbreviation fold_outcome := (fold_outcome f).
Local Abbreviation sim := (sim R).

Hypothesis R_refl : ∀ s, R s s.
Hypothesis R_trans : ∀ s1 s2 s3, R s1 s2 → R s2 s3 → R s1 s3.
Hypothesis f_proper : ∀ x s s', R s s' → sim (f x s) (f x s').
Hypothesis f_swap : ∀ x y s, sim (f x s ≫= f y) (f y s ≫= f x).

Lemma sim_trans (o1 o2 o3 : outcome S) : sim o1 o2 → sim o2 o3 → sim o1 o3.
Proof.
  destruct o1, o2, o3; simpl; try tauto. apply R_trans.
Qed.

Lemma sim_bind (o o' : outcome S) (k k' : S → outcome S) :
  sim o o' → (∀ s s', R s s' → sim (k s) (k' s')) → sim (o ≫= k) (o' ≫= k').
Proof.
  intros Ho Hk. destruct o, o'; simpl in *; try tauto.
  - apply Hk, Ho.
Qed.

Lemma bind_assoc (o : outcome S) (k k' : S → outcome S) :
  (o ≫= k) ≫= k' = o ≫= (λ s, k s ≫= k').
Proof. destruct o; reflexivity. Qed.

Lemma fold_proper (l : list X) : ∀ s s', R s s' → sim (fold_outcome l s) (fold_outcome l s').
Proof.
  induction l as [|x l IH]; intros s s' H; simpl; [exact H|].
  apply sim_bind; [apply f_proper, H|exact IH].
Qed.

(** Steps that commute give the same fold for every order of the list. *)
Lemma fold_perm (l l' : list X) :
  Permutation l l' →
  ∀ s s', R s s' → sim (fold_outcome l s) (fold_outcome l' s').
Proof.
  induction 1 as [|x l l' _ IH|x y l|l1 l2 l3 _ IH1 _ IH2]; intros s s' H.
  - exact H.
  - simpl. apply sim_bind; [apply f_proper, H|exact IH].
  - simpl.
    change (sim (f y s ≫= (λ s1, f x s1 ≫= fold_outcome l))
                (f x s' ≫= (λ s1, f y s1 ≫= fold_outcome l))).
    rewrite <- !bind_assoc.
    apply sim_bind; [|apply fold_proper].
    eapply sim_trans; [apply f_swap|].
    apply sim_bind; [apply f_proper, H|]. intros; now apply f_proper.
  - eapply sim_trans; [apply IH1, R_refl|apply IH2, H].
Qed.

End FoldPermutation.

Lemma scan_items_fold (fs : FS) (items : list Path) (st : scan) :
  scan_items fs items st = fold_outcome (scan_item fs) items st.
Proof.
  revert st. induction items as [|x l IH]; intros st; simpl; [reflexivity|].
  destruct (scan_item fs x st); simpl; [apply IH|reflexivity|reflexivity].
Qed.

Lemma organize_wavs_fold (re : list atom) (wavs : list Path) (lookup : dict) :
  organize_wavs re wavs lookup = fold_outcome (organize_wav re) wavs lookup.
Proof.
  revert lookup. induction wavs as [|x l IH]; intros lookup; simpl; [reflexivity|].
  destruct (organize_wav re x lookup); simpl; [apply IH|reflexivity|reflexivity].
Qed.

Lemma scan_equiv_refl (st : scan) : scan_equiv st st.
Proof. repeat split; reflexivity. Qed.

Lemma scan_equiv_trans (s1 s2 s3 : scan) :
  scan_equiv s1 s2 → scan_equiv s2 s3 → scan_equiv s1 s3.
Proof.
  intros (H1 & H2 & H3 & H4) (G1 & G2 & G3 & G4).
  repeat split; etransitivity; eassumption.
Qed.

Lemma scan_item_role (fs : FS) (item : Path) (st : scan) :
  scan_item fs item st
  = match role_of fs item with
    | NotAFile => Rejected (SubdirectoryNotExpected (path_name item))
    | Wav => Value {| wav_filenames := (wav_filenames st ++ [item])%list;
                      scan_metadata := scan_metadata st;
                      scan_pic := scan_pic st; scan_log := scan_log st |}
    | Metadata =>
        match scan_metadata st with
        | Some _ => Rejected MultipleMetadataFiles
        | None => Value {| wav_filenames := wav_filenames st;
                           scan_metadata := Some item;
                           scan_pic := scan_pic st; scan_log := scan_log st |}
        end
    | Log =>
        match scan_log st with
        | Some _ => Rejected MultipleLogFiles
        | None => Value {| wav_filenames := wav_filenames st;
                           scan_metadata := scan_metadata st;
                           scan_pic := scan_pic st; scan_log := Some item |}
        end
    | Picture =>
        match scan_pic st with
        | Some _ => Rejected MultipleAlbumPictures
        | None => Value {| wav_filenames := wav_filenames st;
                           scan_metadata := scan_metadata st;
                           scan_pic := Some item; scan_log := scan_log st |}
        end
    | Unexpected => Rejected (FilenameNotExpected (path_name item))
    end.
Proof.
  unfold scan_item, role_of.
  destruct (negb (is_file fs item)); [reflexivity|].
  destruct (String.eqb (path_suffix item) ".wav"); [reflexivity|].
  destruct (String.eqb (path_suffix item) ".txt"); [reflexivity|].
  destruct (String.eqb (path_suffix item) ".log"); [reflexivity|].
  destruct (String.eqb (path_suffix item) ".jpg" || String.eqb (path_suffix item) ".jpeg"
            || String.eqb (path_suffix item) ".png"); reflexivity.
Qed.

Lemma scan_item_proper (fs : FS) (x : Path) (st st' : scan) :
  scan_equiv st st' → sim scan_equiv (scan_item fs x st) (scan_item fs x st').
Proof.
  intros (Hw & Hm & Hp & Hl). rewrite !scan_item_role.
  destruct (role_of fs x); simpl; try exact I.
  - repeat split; simpl; try assumption. now apply Permutation_app_tail.
  - rewrite <- Hm. destruct (scan_metadata st); simpl; [exact I|].
    repeat split; simpl; assumption.
  - rewrite <- Hl. destruct (scan_log st); simpl; [exact I|].
    repeat split; simpl; assumption.
  - rewrite <- Hp. destruct (scan_pic st); simpl; [exact I|].
    repeat split; simpl; assumption.
Qed.

Lemma scan_item_swap (fs : FS) (x y : Path) (st : scan) :
  sim scan_equiv (scan_item fs x st ≫= scan_item fs y)
                 (scan_item fs y st ≫= scan_item fs x).
Proof.
  rewrite (scan_item_role fs x st), (scan_item_role fs y st).
  destruct st as [ws m p l].
  destruct (role_of fs x) eqn:Ex, (role_of fs y) eqn:Ey, m, p, l; simpl;
    rewrite ?scan_item_role, ?Ex, ?Ey; simpl;
    try exact I; try (repeat split; simpl; reflexivity).
  all: repeat split; simpl; try reflexivity.
  all: rewrite <- !app_assoc; apply Permutation_app_head, perm_swap.
Qed.

Lemma dict_eq_refl (d : dict) : dict_eq d d.
Proof. intros k. reflexivity. Qed.

Lemma dict_eq_trans (d1 d2 d3 : dict) : dict_eq d1 d2 → dict_eq d2 d3 → dict_eq d1 d3.
Proof. intros H1 H2 k. now rewrite H1. Qed.

Lemma dict_set_proper (d d' : dict) (k : Z) (v : Path) :
  dict_eq d d' → dict_eq (dict_set d k v) (dict_set d' k v).
Proof. intros H k'. rewrite !dict_get_set, H. reflexivity. Qed.

Lemma organize_wav_proper (re : list atom) (x : Path) (d d' : dict) :
  dict_eq d d' → sim dict_eq (organize_wav re x d) (organize_wav re x d').
Proof.
  intros H. unfold organize_wav.
  destruct (group_track_num re (path_name x)) as [g|]; [|exact I].
  destruct (int g) as [track|e]; simpl; [|exact I].
  rewrite <- (H track). destruct (dict_get d track); simpl; [exact I|].
  now apply dict_set_proper.
Qed.

Lemma organize_wav_swap (re : list atom) (x y : Path) (d : dict) :
  sim dict_eq (organize_wav re x d ≫= organize_wav re y)
              (organize_wav re y d ≫= organize_wav re x).
Proof.
  unfold organize_wav.
  destruct (group_track_num re (path_name x)) as [gx|],
           (group_track_num re (path_name y)) as [gy|]; simpl; try exact I.
  - destruct (int gx) as [kx|ex], (int gy) as [ky|ey]; simpl; try exact I.
    + destruct (dict_get d kx) eqn:Gx, (dict_get d ky) eqn:Gy; simpl;
        rewrite ?dict_get_set, ?Gx, ?Gy; try exact I.
      * destruct (Z.eqb ky kx); exact I.
      * destruct (Z.eqb kx ky); exact I.
      * rewrite (Z.eqb_sym ky kx).
        destruct (Z.eqb_spec kx ky) as [->|Hne]; simpl; [exact I|].
        intros k. rewrite !dict_get_set.
        destruct (Z.eqb_spec ky k) as [->|]; [|reflexivity].
        destruct (Z.eqb_spec kx k); [congruence|reflexivity].
    + destruct (dict_get d kx); simpl; exact I.
    + destruct (dict_get d ky); simpl; exact I.
  - destruct (int gx) as [kx|ex]; simpl; [|exact I].
    destruct (dict_get d kx); simpl; exact I.
  - destruct (int gy) as [ky|ey]; simpl; [|exact I].
    destruct (dict_get d ky); simpl; exact I.
Qed.

Lemma scan_items_early (fs : FS) (items : list Path) : ∀ st w,
  scan_items fs items st = Rejected w → order_free w = false.
Proof.
  induction items as [|x l IH]; intros st w; simpl; [discriminate|].
  rewrite scan_item_role.
  destruct (role_of fs x); simpl;
    try (intros [= <-]; reflexivity); try apply IH.
  - destruct (scan_metadata st); simpl; [intros [= <-]; reflexivity|apply IH].
  - destruct (scan_log st); simpl; [intros [= <-]; reflexivity|apply IH].
  - destruct (scan_pic st); simpl; [intros [= <-]; reflexivity|apply IH].
Qed.

Lemma organize_wavs_early (re : list atom) (wavs : list Path) : ∀ d w,
  organize_wavs re wavs d = Rejected w → order_free w = false.
Proof.
  induction wavs as [|x l IH]; intros d w; simpl; [discriminate|].
  unfold organize_wav at 1.
  destruct (group_track_num re (path_name x)) as [g|]; simpl;
    [|intros [= <-]; reflexivity].
  destruct (int g) as [k|e]; simpl; [|discriminate].
  destruct (dict_get d k); simpl; [intros [= <-]; reflexivity|apply IH].
Qed.

Lemma scan_items_perm (fs : FS) (items items' : list Path) :
  items ≡ₚ items' →
  sim scan_equiv (scan_items fs items scan_empty) (scan_items fs items' scan_empty).
Proof.
  intros H. rewrite !scan_items_fold.
  apply (fold_perm (scan_item fs) scan_equiv scan_equiv_refl scan_equiv_trans
           (scan_item_proper fs) (scan_item_swap fs) items items' H).
  apply scan_equiv_refl.
Qed.

Lemma organize_wavs_perm (re : list atom) (wavs wavs' : list Path) :
  wavs ≡ₚ wavs' →
  sim dict_eq (organize_wavs re wavs []) (organize_wavs re wavs' []).
Proof.
  intros H. rewrite !organize_wavs_fold.
  apply (fold_perm (organize_wav re) dict_eq dict_eq_refl dict_eq_trans
           (organize_wav_proper re) (organize_wav_swap re) wavs wavs' H).
  apply dict_eq_refl.
Qed.

(** The classification of a directory from the scan on. *)
Lemma from_directory_with_scan (re : list atom) (fs : FS) (items : list Path)
    (directory : Path) :
  from_directory_with re fs items directory
  = st ← scan_items fs items scan_empty;
    match wav_filenames st with
    | [] => Rejected NoWavFiles
    | _ =>
        match scan_metadata st with
        | None => Rejected NoMetadataFile
        | Some metadata =>
            lookup ← organize_wavs re (wav_filenames st) [];
            lines ← lift (readlines fs metadata);
            trks ← parse_lines 0 lines [];
            Value {| source_dir := directory; tracks := trks;
                     album_pic := scan_pic st;
                     metadata_filename := Some metadata;
                     log_filename := scan_log st; wav_lookup := lookup |}
        end
    end.
Proof. reflexivity. Qed.




(** ** The two phases of the batch *)

Lemma encode_loop_events (encoder : encoder_t) (flac_output_dir : Path)
    (input_directory_is_source : bool) (albums : albums_t) : ∀ w errs done evs res,
  encode_loop encoder flac_output_dir input_directory_is_source albums w errs done
  = (evs, res) →
  Forall (λ e, is_encode_event e = true) evs
  ∧ encode_calls evs `prefix_of` ids albums.
Proof.
  induction albums as [|[id album] rest IH]; intros w errs done evs res; simpl.
  - intros [= <- <-]. split; [constructor|]. apply prefix_nil.
  - destruct (name album) as [nm|e]; [|intros [= <- <-]; split;
      [constructor|apply prefix_nil]].
    destruct (encoder w album _) as [[[r w'] album']|e].
    + destruct (encode_loop _ _ _ rest _ _ _) as [evs1 res1] eqn:E.
      apply IH in E as [Hev Hpre]. intros [= <- <-]. split.
      * repeat constructor. exact Hev.
      * simpl. apply prefix_cons, Hpre.
    + intros [= <- <-]. split; [repeat constructor|].
      simpl. apply prefix_cons, prefix_nil.
Qed.

(** After the loop the set holds the albums it held before and those for
    which the encoder returned [Failure]. *)
Lemma encode_loop_errors (encoder : encoder_t) (flac_output_dir : Path)
    (input_directory_is_source : bool) (albums : albums_t) :
  ∀ w errs done evs errs' w' albums',
  encode_loop encoder flac_output_dir input_directory_is_source albums w errs done
  = (evs, Ok (errs', w', albums')) →
  ids albums' = (ids done ++ ids albums)%list
  ∧ ∀ id, id ∈ errs' ↔ id ∈ errs ∨ EncodeReturned id Failure ∈ evs.
Proof.
  induction albums as [|[id album] rest IH];
    intros w errs done evs errs' w' albums'; simpl.
  - intros [= <- <- <- <-]. split; [now rewrite app_nil_r|].
    intros id. rewrite elem_of_nil. tauto.
  - destruct (name album) as [nm|e]; [|discriminate].
    destruct (encoder w album _) as [[[r w1] album1]|e]; [|discriminate].
    destruct (encode_loop _ _ _ rest _ _ _) as [evs1 res1] eqn:E.
    intros [= <- ->]. apply IH in E as [Hids Herr]. split.
    + rewrite Hids. unfold ids. rewrite map_app. simpl.
      now rewrite <- app_assoc.
    + intros i. rewrite Herr, !elem_of_cons.
      destruct r; rewrite ?elem_of_union, ?elem_of_singleton;
        intuition (congruence || eauto).
Qed.

Ltac no_events :=
  split; [constructor|];
  split; [intros ? Hi; now apply elem_of_nil in Hi|];
  split; [intros ? Hi; now apply elem_of_nil in Hi|].

Lemma archive_events (archiver : archiver_t) (archive_output_dir : Path)
    (input_directory_is_source : bool) (encode_errors : gset nat)
    (albums : albums_t) : ∀ w evs res,
  _ArchiveContent w archive_output_dir albums archiver encode_errors
    input_directory_is_source = (evs, res) →
  Forall (λ e, is_archive_event e = true) evs
  ∧ (∀ id, ArchiveCalled id ∈ evs → id ∉ encode_errors)
  ∧ (∀ id, ArchiveSkipped id ∈ evs → id ∈ encode_errors ∧ id ∈ ids albums)
  ∧ (∀ w', res = Ok w' → ∀ id, id ∈ ids albums → id ∈ encode_errors →
           ArchiveSkipped id ∈ evs).
Proof.
  induction albums as [|[id album] rest IH]; intros w evs res; simpl.
  - intros [= <- <-]. no_events. intros w' _ i Hi. now apply elem_of_nil in Hi.
  - destruct (name album) as [nm|e].
    2: { intros [= <- <-]. no_events. discriminate. }
    destruct (bool_decide (id ∈ encode_errors)) eqn:Hid.
    + apply bool_decide_eq_true in Hid.
      destruct (_ArchiveContent _ _ rest _ _ _) as [evs1 res1] eqn:E.
      apply IH in E as (Hev & Hc & Hs & Hd). intros [= <- <-].
      split; [constructor; [reflexivity|exact Hev]|]. split; [|split].
      * intros i Hi. apply elem_of_cons in Hi as [Hi|Hi]; [discriminate|].
        now apply Hc.
      * intros i Hi. rewrite elem_of_cons.
        apply elem_of_cons in Hi as [[= ->]|Hi]; [tauto|].
        apply Hs in Hi. tauto.
      * intros w' Hw i Hi He. rewrite elem_of_cons.
        apply elem_of_cons in Hi as [->|Hi]; [left; reflexivity|].
        right. eapply Hd; eassumption.
    + apply bool_decide_eq_false in Hid.
      destruct (archiver w album _ _) as [[r w1]|e].
      * destruct (_ArchiveContent _ _ rest _ _ _) as [evs1 res1] eqn:E.
        apply IH in E as (Hev & Hc & Hs & Hd). intros [= <- <-].
        split; [repeat constructor; exact Hev|]. split; [|split].
        -- intros i Hi. apply elem_of_cons in Hi as [[= ->]|Hi]; [exact Hid|].
           apply elem_of_cons in Hi as [Hi|Hi]; [discriminate|]. now apply Hc.
        -- intros i Hi. rewrite elem_of_cons.
           apply elem_of_cons in Hi as [Hi|Hi]; [discriminate|].
           apply elem_of_cons in Hi as [Hi|Hi]; [discriminate|].
           apply Hs in Hi. tauto.
        -- intros w' Hw i Hi He. rewrite !elem_of_cons.
           apply elem_of_cons in Hi as [->|Hi]; [contradiction|].
           right. right. eapply Hd; eassumption.
      * intros [= <- <-]. split; [repeat constructor|]. split; [|split].
        -- intros i Hi. apply elem_of_cons in Hi as [[= ->]|Hi]; [exact Hid|].
           now apply elem_of_nil in Hi.
        -- intros i Hi. apply elem_of_cons in Hi as [Hi|Hi]; [discriminate|].
           now apply elem_of_nil in Hi.
        -- discriminate.
Qed.

Section EntryPointProperties.

Variable path_str : Path → string.
Variable subprocess : string → option Path → FS → Z * FS.
Variable iterdir : FS → Path → list Path.
Variable os_name : string.

(** The identities given by the classification are all different. *)
Lemma classify_all_ids (re : list atom) (directories : list Path) :
  ∀ index w albums w' albums',
  classify_all iterdir re index directories w albums = Ok (w', albums') →
  (∀ id, id ∈ ids albums → id < index) →
  NoDup (ids albums) →
  NoDup (ids albums').
Proof.
  induction directories as [|d rest IH]; intros index w albums w' albums'; simpl.
  - intros [= <- <-] _ H. exact H.
  - destruct (from_directory_with re (w_fs w) (iterdir (w_fs w) d) d)
      as [album|warning|e]; [| |discriminate].
    + intros H Hlt Hnd. eapply IH; [exact H| |].
      * intros id. unfold ids. rewrite map_app, elem_of_app. simpl.
        rewrite elem_of_cons, elem_of_nil. intros [Hi|[->|[]]]; [|lia].
        apply Hlt in Hi. lia.
      * unfold ids. rewrite map_app. simpl. apply NoDup_app.
        split; [exact Hnd|]. split; [|apply NoDup_singleton].
        intros id Hi. rewrite elem_of_cons, elem_of_nil. intros [->|[]].
        apply Hlt in Hi. lia.
    + intros H Hlt Hnd. eapply IH; [exact H| |exact Hnd].
      intros id Hi. apply Hlt in Hi. lia.
Qed.

Lemma encode_returned_id (encoder : encoder_t) (flac_output_dir : Path)
    (is_source : bool) (albums : albums_t) : ∀ w errs done evs res id r,
  encode_loop encoder flac_output_dir is_source albums w errs done = (evs, res) →
  EncodeReturned id r ∈ evs → id ∈ ids albums.
Proof.
  induction albums as [|[i album] rest IH]; intros w errs done evs res id r; simpl.
  - intros [= <- <-] H. now apply elem_of_nil in H.
  - destruct (name album) as [nm|e];
      [|intros [= <- <-] H; now apply elem_of_nil in H].
    destruct (encoder w album _) as [[[r1 w1] album1]|e].
    + destruct (encode_loop _ _ _ rest _ _ _) as [evs1 res1] eqn:E.
      intros [= <- <-] H. rewrite elem_of_cons.
      apply elem_of_cons in H as [H|H]; [discriminate|].
      apply elem_of_cons in H as [[= -> ->]|H]; [left; reflexivity|].
      right. eapply IH; eassumption.
    + intros [= <- <-] H. apply elem_of_cons in H as [H|H]; [discriminate|].
      now apply elem_of_nil in H.
Qed.

(** C1, for [EntryPoint] of the current implementation. The events of a run
    are those of the encoding of all albums followed by those of the
    archiving; the encoder is called at most once for an album; the
    archiver is never called for an album for which the encoder returned
    [Failure]; an album is skipped only if the encoder returned [Failure]
    for it; and in a run that no exception ends, every album for which the
    encoder returned [Failure] is skipped. *)
Theorem EntryPoint_phases (w : world)
    (input_directory archive_output_dir flac_output_dir : Path) :
  let run := EntryPoint path_str subprocess iterdir os_name w input_directory
               archive_output_dir flac_output_dir in
  ∃ encoding archiving,
    run.1 = (encoding ++ archiving)%list
    ∧ Forall (λ e, is_encode_event e = true) encoding
    ∧ Forall (λ e, is_archive_event e = true) archiving
    ∧ NoDup (encode_calls encoding)
    ∧ (∀ id, ArchiveCalled id ∈ archiving → EncodeReturned id Failure ∉ encoding)
    ∧ (∀ id, ArchiveSkipped id ∈ archiving → EncodeReturned id Failure ∈ encoding)
    ∧ (∀ w', run.2 = Ok w' →
         ∀ id, EncodeReturned id Failure ∈ encoding → ArchiveSkipped id ∈ archiving).
Proof.
  assert (Hnone : ∀ res : result world,
    ∃ encoding archiving,
      ([] : list event) = (encoding ++ archiving)%list
      ∧ Forall (λ e, is_encode_event e = true) encoding
      ∧ Forall (λ e, is_archive_event e = true) archiving
      ∧ NoDup (encode_calls encoding)
      ∧ (∀ id, ArchiveCalled id ∈ archiving → EncodeReturned id Failure ∉ encoding)
      ∧ (∀ id, ArchiveSkipped id ∈ archiving → EncodeReturned id Failure ∈ encoding)
      ∧ (∀ w', res = Ok w' →
           ∀ id, EncodeReturned id Failure ∈ encoding → ArchiveSkipped id ∈ archiving)).
  { intros res. exists [], []. split; [reflexivity|].
    split; [constructor|]. split; [constructor|]. split; [constructor|].
    split; [|split]; intros; exfalso; eapply not_elem_of_nil; eassumption. }
  unfold EntryPoint.
  destruct (discover iterdir (w_fs w) input_directory) as [directories is_source].
  destruct (classify_all iterdir wav_regex 0 directories w []) as [[w1 albums]|e] eqn:Ec;
    [|apply Hnone].
  assert (Hnd : NoDup (ids albums)).
  { eapply classify_all_ids; [exact Ec| |constructor].
    intros id Hi. now apply elem_of_nil in Hi. }
  destruct albums as [|a0 albums0]; [apply Hnone|].
  set (albums := a0 :: albums0) in *.
  destruct (_GetEncoder path_str subprocess w1) as [w2 [encoder|]]; [|apply Hnone].
  destruct (_GetArchiver path_str subprocess os_name w2) as [[w3 [archiver|]]|e];
    [|apply Hnone|apply Hnone].
  unfold _EncodeContent.
  destruct (encode_loop encoder flac_output_dir is_source albums w3 ∅ [])
    as [evs [[[errs w4] albums']|e]] eqn:Ee.
  - pose proof (encode_loop_events encoder flac_output_dir is_source albums w3 ∅ []
                  _ _ Ee) as [Hev Hpre].
    pose proof (encode_loop_errors encoder flac_output_dir is_source albums w3 ∅ []
                  evs errs w4 albums' Ee) as [Hids Herr].
    simpl in Hids.
    destruct (_ArchiveContent w4 archive_output_dir albums' archiver errs is_source)
      as [evs' res] eqn:Ea.
    pose proof (archive_events archiver archive_output_dir is_source errs albums'
                  w4 evs' res Ea) as (Hav & Hc & Hs & Hd).
    exists evs, evs'. simpl. split; [reflexivity|].
    split; [exact Hev|]. split; [exact Hav|]. split.
    { destruct Hpre as [k Hk]. rewrite Hk in Hnd. now apply NoDup_app in Hnd as [? _]. }
    split; [|split].
    + intros id Hi Hf. apply Hc in Hi. apply Hi, Herr. right. exact Hf.
    + intros id Hi. apply Hs in Hi as [Hi _]. apply Herr in Hi as [Hi|Hi]; [|exact Hi].
      now apply elem_of_empty in Hi.
    + intros w' Hw id Hf. eapply Hd; [exact Hw| |apply Herr; right; exact Hf].
      rewrite Hids. change (id ∈ ids albums).
      eapply encode_returned_id; eassumption.
  - pose proof (encode_loop_events encoder flac_output_dir is_source albums w3 ∅ []
                  _ _ Ee) as [Hev Hpre].
    exists evs, []. simpl. split; [now rewrite app_nil_r|].
    split; [exact Hev|]. split; [constructor|]. split.
    { destruct Hpre as [k Hk]. rewrite Hk in Hnd. now apply NoDup_app in Hnd as [? _]. }
    split; [|split]; try discriminate;
      intros id Hi; exfalso; eapply not_elem_of_nil; eassumption.
Qed.

End EntryPointProperties.

(** ** What a failed encoding leaves behind

    When the temporary directory is another directory than the output
    directory, the steps before the commit do not make the output
    directory. *)

Lemma rmtree_absent (q p : Path) (fs : FS) :
  fs !! p = None → rmtree q fs !! p = None.
Proof.
  intros H. unfold rmtree. apply map_lookup_filter_None. left. exact H.
Qed.

Lemma ancestors_shorter (p q : Path) : q ∈ ancestors p → length q < length p.
Proof.
  revert q. induction p as [|x rest IH]; intros q; simpl.
  - intros H. now apply elem_of_nil in H.
  - destruct rest as [|y rest'].
    + intros H. now apply elem_of_nil in H.
    + intros H. apply elem_of_cons in H as [->|H]; [simpl; lia|].
      apply list_elem_of_fmap in H as (q' & -> & Hq').
      apply IH in Hq'. simpl in *. lia.
Qed.

Lemma make_dirs_absent (p : Path) (ps : list Path) : ∀ fs fs',
  make_dirs ps fs = Ok fs' → p ∉ ps → fs !! p = None → fs' !! p = None.
Proof.
  induction ps as [|q rest IH]; intros fs fs'; simpl.
  - intros [= <-] _ H. exact H.
  - intros Hm Hp H. apply not_elem_of_cons in Hp as [Hne Hp].
    destruct (fs !! q) as [[|text]|] eqn:E; [|discriminate|].
    + eapply IH; eassumption.
    + eapply IH; [exact Hm|exact Hp|]. rewrite lookup_insert_ne; congruence.
Qed.

Lemma mkdir_parents_absent (p q : Path) (fs fs' : FS) :
  mkdir_parents q fs = Ok fs' → length p = length q → p ≠ q →
  fs !! p = None → fs' !! p = None.
Proof.
  unfold mkdir_parents. destruct (fs !! q); [discriminate|].
  intros H Hlen Hne Hp. apply bind_ok in H as (fs1 & Hm & [= <-]).
  rewrite lookup_insert_ne by congruence.
  eapply make_dirs_absent; [exact Hm| |exact Hp].
  intros Hin. apply ancestors_shorter in Hin. lia.
Qed.

Lemma unlink_absent (p q : Path) (fs fs' : FS) :
  unlink_missing_ok q fs = Ok fs' → fs !! p = None → fs' !! p = None.
Proof.
  unfold unlink_missing_ok. destruct (fs !! q) as [[|text]|]; [discriminate| |].
  - intros [= <-] H. apply lookup_delete_None. right. exact H.
  - now intros [= <-].
Qed.

Lemma move_tree_absent (src dst p : Path) (fs : FS) :
  ¬ dst `prefix_of` p → fs !! p = None → move_tree src dst fs !! p = None.
Proof.
  intros Hpre H. unfold move_tree. apply lookup_union_None. split.
  - apply not_elem_of_list_to_map_1. intros Hin.
    apply list_elem_of_fmap in Hin as ([k v] & -> & Hin).
    apply list_elem_of_fmap in Hin as ([k' v'] & [= -> ->] & _).
    apply Hpre. simpl. now apply prefix_app_r.
  - now apply rmtree_absent.
Qed.

Lemma rename_absent (src dst p : Path) (fs fs' : FS) :
  rename src dst fs = Ok fs' → ¬ dst `prefix_of` p →
  fs !! p = None → fs' !! p = None.
Proof.
  unfold rename. destruct (fs !! src); [|discriminate].
  destruct (bool_decide (src = dst)); [now intros [= <-]|].
  destruct (fs !! dst); [discriminate|].
  destruct (is_dir fs (path_parent dst)); [|discriminate].
  intros [= <-]. apply move_tree_absent.
Qed.

Lemma path_join_prefix (p : Path) (s : string) : p `prefix_of` path_join p s.
Proof.
  unfold path_join. destruct s; [reflexivity|]. now apply prefix_app_r.
Qed.

Lemma with_suffix_length (p q : Path) (suffix : string) :
  with_suffix p suffix = Ok q → length q = length p.
Proof.
  unfold with_suffix. destruct (path_name p) eqn:E; [discriminate|].
  intros [= <-]. destruct p as [|x rest] using rev_ind; [discriminate|].
  unfold path_parent. rewrite removelast_last, !length_app. reflexivity.
Qed.

(** A sibling of the same length that is another path is no prefix. *)
Lemma sibling_no_prefix (p q r : Path) :
  length p = length q → p ≠ q → q `prefix_of` r → ¬ r `prefix_of` p.
Proof.
  intros Hlen Hne Hqr Hrp.
  assert (Hqp : q `prefix_of` p) by (etransitivity; eassumption).
  destruct Hqp as [k Hk]. subst p. rewrite length_app in Hlen.
  destruct k; [|simpl in Hlen; lia]. rewrite app_nil_r in Hne. congruence.
Qed.

Section EncodeFailure.

Variable path_str : Path → string.
Variable subprocess : string → option Path → FS → Z * FS.
Variable binary_name : string.
Variable output_dir temp_dir : Path.

Hypothesis temp_is_sibling : length output_dir = length temp_dir.
Hypothesis temp_is_other : output_dir ≠ temp_dir.

(** The processes do not make the output directory themselves. *)
Hypothesis subprocess_frame : ∀ command_line cwd fs,
  fs !! output_dir = None → (subprocess command_line cwd fs).2 !! output_dir = None.

Lemma encode_track_absent album track w lookup fl w' lookup' :
  encode_track path_str subprocess binary_name album temp_dir track w lookup
  = Ok (fl, w', lookup') →
  w_fs w !! output_dir = None → w_fs w' !! output_dir = None.
Proof.
  unfold encode_track.
  destruct (dict_pop lookup (track_num track)) as [[wav|] l1].
  - intros H Habs. apply bind_ok in H as (fs1 & Hu & H).
    pose proof (subprocess_frame
      (encode_command_line path_str binary_name album track wav
         (path_join temp_dir ("temp_" +:+ str_of_int (track_num track))))
      None fs1 (unlink_absent _ _ _ _ Hu Habs)) as Hsub.
    destruct (subprocess _ None fs1) as [code fs2]. simpl in Hsub.
    destruct (negb (Z.eqb code 0)); [now intros; simplify_eq|].
    apply bind_ok in H as (flac & _ & H).
    apply bind_ok in H as (fs3 & Hr & [= <- <- <-]). simpl.
    eapply rename_absent; [exact Hr| |exact Hsub].
    eapply sibling_no_prefix; [exact temp_is_sibling|exact temp_is_other|].
    apply path_join_prefix.
  - destruct (is_data_track (title track)); intros [= <- <- <-]; simpl; tauto.
Qed.

Lemma encode_tracks_absent album trks : ∀ w lookup fl w' lookup',
  encode_tracks path_str subprocess binary_name album temp_dir trks w lookup
  = Ok (fl, w', lookup') →
  w_fs w !! output_dir = None → w_fs w' !! output_dir = None.
Proof.
  induction trks as [|t rest IH]; intros w lookup fl w' lookup'; simpl.
  - now intros [= <- <- <-].
  - intros H Habs. apply bind_ok in H as ([[fl1 w1] l1] & Ht & H).
    apply encode_track_absent in Ht; [|exact Habs].
    destruct fl1; [eapply IH; eassumption|]. now simplify_eq.
Qed.

(** When [Encode] returns [Failure], an output directory that was not
    there before the run is not there after it. *)
Lemma Encode_failure_no_output_dir (w w' : world) (album album' : _Album) :
  with_suffix output_dir ".tmp" = Ok temp_dir →
  w_fs w !! output_dir = None →
  Encode path_str subprocess binary_name w album output_dir
  = Ok (Failure, w', album') →
  w_fs w' !! output_dir = None.
Proof.
  intros Htmp Habs. unfold Encode.
  destruct (is_dir (w_fs w) output_dir); [discriminate|].
  rewrite Htmp. cbn. intros H.
  apply bind_ok in H as (fs2 & Hmk & H).
  apply bind_ok in H as ([[fl w3] lookup] & Hloop & H).
  assert (Habs2 : fs2 !! output_dir = None).
  { eapply mkdir_parents_absent;
      [exact Hmk|exact temp_is_sibling|exact temp_is_other|].
    destruct (is_dir (w_fs w) temp_dir); [now apply rmtree_absent|exact Habs]. }
  apply encode_tracks_absent in Hloop; [|exact Habs2].
  destruct fl as [|r].
  - destruct lookup as [|kv rest].
    + apply bind_ok in H as (fs4 & _ & H).
      apply bind_ok in H as (fs5 & _ & H). discriminate.
    + injection H as <- <-. exact Hloop.
  - injection H as -> <- <-. exact Hloop.
Qed.

End EncodeFailure.



(** * Further properties *)

(** ** The track parser *)

(** X1. A newline at the end of a line does not change what the parser
    gives: the last line of a file parses the same with and without it. *)
Theorem from_tab_delimited_line_final_newline (line : string) :
  from_tab_delimited_line (line +:+ String newline EmptyString)
  = from_tab_delimited_line line.
Proof.
  unfold from_tab_delimited_line. rewrite rstrip_app_same. reflexivity.
Qed.

Lemma split_tab_free (c : ascii) (s : string) :
  Forall (λ x, count_char c x = 0) (split c s).
Proof.
  induction s as [|a s IH]; simpl.
  - repeat constructor.
  - destruct (Ascii.eqb a c) eqn:E.
    + constructor; [reflexivity|exact IH].
    + destruct (split c s) as [|h t]; [repeat constructor; simpl; now rewrite E|].
      inversion IH as [|? ? Hh Ht]; subst. constructor; [|exact Ht].
      simpl. rewrite E. exact Hh.
Qed.

Lemma split_not_nil (c : ascii) (s : string) : split c s ≠ [].
Proof.
  destruct s as [|a s]; simpl; [discriminate|].
  destruct (Ascii.eqb a c); [discriminate|]. destruct (split c s); discriminate.
Qed.

(** The last item of a split is empty only for the empty string and for a
    string that ends in the separator. *)
Lemma split_last_empty (c : ascii) (s : string) :
  List.last (split c s) EmptyString = EmptyString →
  s = EmptyString ∨ ends_with c s = true.
Proof.
  induction s as [|a s IH]; intros H; [now left|]. right.
  simpl in H |- *. destruct (Ascii.eqb a c) eqn:E.
  - destruct s as [|b s]; [reflexivity|].
    assert (Hl : List.last (split c (String b s)) EmptyString = EmptyString).
    { pose proof (split_not_nil c (String b s)).
      destruct (split c (String b s)); [congruence|exact H]. }
    destruct (IH Hl) as [?|?]; [discriminate|assumption].
  - pose proof (split_not_nil c s) as Hn.
    destruct (split c s) as [|h t] eqn:Es; [congruence|].
    destruct t as [|h' t'].
    + simpl in H. discriminate.
    + assert (Hl : List.last (h :: h' :: t') EmptyString = EmptyString) by exact H.
      destruct (IH Hl) as [->|He]; [simpl in Es; discriminate|].
      destruct s; [discriminate|exact He].
Qed.

Lemma rstrip_no_trailing (c : ascii) (s : string) : ends_with c (rstrip c s) = false.
Proof.
  induction s as [|a s IH]; simpl; [reflexivity|].
  destruct (rstrip c s) as [|b r] eqn:E.
  - destruct (Ascii.eqb a c) eqn:Ea; simpl; [reflexivity|exact Ea].
  - exact IH.
Qed.

Lemma nth_tab_free (items : list string) (i : nat) :
  Forall tab_free items → tab_free (item items i).
Proof.
  intros H. unfold item. revert i. induction H as [|x l Hx Hl IH]; intros [|i]; simpl;
    try reflexivity; [exact Hx|apply IH].
Qed.

(** What the parser gives for a list of 16 items. *)
Lemma parse_ok_items (line : string) (t : _TrackMetadata) :
  from_tab_delimited_line line = Ok t →
  length (line_items line) = 16
  ∧ text_fields t = map (item (line_items line)) [0; 1; 3; 4; 5; 6; 7; 8; 10; 11; 14; 15].
Proof.
  unfold from_tab_delimited_line, line_items.
  set (items := split tab (rstrip tab (rstrip newline line))).
  destruct (Nat.eqb_spec (length items) 16) as [Hlen|]; [|discriminate]. simpl.
  destruct (int (item items 2)); [|discriminate].
  destruct (int (item items 9)); [|discriminate].
  destruct (int (item items 12)); [|discriminate].
  destruct (int (item items 13)); [|discriminate].
  cbn. intros [= <-]. split; [exact Hlen|reflexivity].
Qed.

(** X3. No text attribute of a parsed track holds a tab, and its last
    attribute, the CD database id, is never empty: the trailing tabs of the
    line were stripped before it was split. *)
Theorem parsed_track_fields (line : string) (t : _TrackMetadata) :
  from_tab_delimited_line line = Ok t →
  Forall tab_free (text_fields t) ∧ cd_db_id t ≠ EmptyString.
Proof.
  intros H. apply parse_ok_items in H as [Hlen Hf].
  assert (Hfree : Forall tab_free (line_items line)) by apply split_tab_free.
  split.
  - rewrite Hf. apply Forall_fmap, Forall_forall. intros i _. simpl.
    now apply nth_tab_free.
  - assert (Hid : cd_db_id t = item (line_items line) 15).
    { unfold text_fields in Hf. simpl in Hf. congruence. }
    rewrite Hid. intros He.
    assert (Hlast : List.last (line_items line) EmptyString = EmptyString).
    { revert Hlen He. generalize (line_items line). intros l Hlen He.
      do 16 (destruct l as [|? l]; [simpl in Hlen; lia|]).
      destruct l; [exact He|simpl in Hlen; lia]. }
    unfold line_items in Hlast, Hlen.
    apply split_last_empty in Hlast as [Hs|Hs].
    + rewrite Hs in Hlen. simpl in Hlen. lia.
    + rewrite rstrip_no_trailing in Hs. discriminate.
Qed.

Lemma parsed_track_fields_witness :
  Forall tab_free (text_fields (demo_track 3 "Blue in Green"))
  ∧ cd_db_id (demo_track 3 "Blue in Green") ≠ EmptyString.
Proof.
  apply (parsed_track_fields (demo_line "3" "Blue in Green")).
  vm_compute. reflexivity.
Defined.

Lemma item_app_l (fs : list string) (x : string) (i : nat) :
  i < length fs → item (fs ++ [x]) i = item fs i.
Proof. intros H. unfold item. now apply app_nth1. Qed.

Lemma item_app_last (fs : list string) (x : string) :
  item (fs ++ [x]) (length fs) = x.
Proof. unfold item. rewrite app_nth2, Nat.sub_diag by lia. reflexivity. Qed.



(** ** The command line of the encoder *)

Lemma quotes_escaped_escape (s : string) : ∀ b,
  quotes_escaped b (escape_quotes s) = true.
Proof.
  induction s as [|a s IH]; intros b; simpl; [reflexivity|].
  destruct (Ascii.eqb a "034"%char) eqn:E.
  - unfold backslash, dquote. norm_append. simpl. apply IH.
  - simpl. rewrite E. apply IH.
Qed.

Lemma escape_quotes_head (s : string) :
  match escape_quotes s with
  | String b _ => Ascii.eqb b "034"%char = false
  | EmptyString => True
  end.
Proof.
  destruct s as [|a s]; simpl; [exact I|].
  destruct (Ascii.eqb a "034"%char) eqn:E; [reflexivity|exact E].
Qed.

(** X4. [escape_quotes], which [Encode] applies to the text tags and to the
    two file names, puts a backslash before each double quote and changes
    nothing else: in its result every double quote comes after a
    backslash, and taking these backslashes out gives the value back. *)
Theorem escape_quotes_spec (s : string) :
  quotes_escaped false (escape_quotes s) = true
  ∧ unescape_quotes (escape_quotes s) = s.
Proof.
  split; [apply quotes_escaped_escape|].
  induction s as [|a s IH]; [reflexivity|].
  simpl. destruct (Ascii.eqb a "034"%char) eqn:E.
  - apply Ascii.eqb_eq in E as ->. unfold backslash, dquote. norm_append.
    simpl. now rewrite IH.
  - pose proof (escape_quotes_head s) as Hh.
    simpl. destruct (escape_quotes s) as [|b r] eqn:Er.
    + simpl in IH. now rewrite <- IH.
    + rewrite Hh, andb_false_r. now rewrite IH.
Qed.

(** ** What an accepted directory holds *)

Lemma with_role_cons (fs : FS) (r : role) (x : Path) (l : list Path) :
  with_role fs r (x :: l)
  = if decide (role_of fs x = r) then x :: with_role fs r l else with_role fs r l.
Proof. unfold with_role. rewrite filter_cons. reflexivity. Qed.

Ltac role_listed :=
  repeat first [apply list_elem_of_here | apply list_elem_of_further].

(** What the first loop has seen when it ends: every entry has one of the
    four roles, and each variable holds the entries of its role. *)
Lemma scan_items_value (fs : FS) (items : list Path) : ∀ st st',
  scan_items fs items st = Value st' →
  Forall (λ item, role_of fs item ∈ [Wav; Metadata; Log; Picture]) items
  ∧ wav_filenames st' = (wav_filenames st ++ with_role fs Wav items)%list
  ∧ option_list (scan_metadata st')
    = (option_list (scan_metadata st) ++ with_role fs Metadata items)%list
  ∧ option_list (scan_log st')
    = (option_list (scan_log st) ++ with_role fs Log items)%list
  ∧ option_list (scan_pic st')
    = (option_list (scan_pic st) ++ with_role fs Picture items)%list.
Proof.
  induction items as [|x l IH]; intros st st'; simpl.
  - intros [= <-]. rewrite !app_nil_r. repeat split. constructor.
  - rewrite scan_item_role, !with_role_cons.
    destruct (role_of fs x) eqn:Er; simpl; try discriminate.
    + intros H. apply IH in H as (Hf & Hw & Hm & Hl & Hp). simpl in *.
      repeat split; try assumption.
      * constructor; [rewrite Er; role_listed|exact Hf].
      * rewrite Hw, <- app_assoc. reflexivity.
    + destruct (scan_metadata st) eqn:Em; simpl; [discriminate|].
      intros H. apply IH in H as (Hf & Hw & Hm & Hl & Hp). simpl in *.
      repeat split; try assumption.
      constructor; [rewrite Er; role_listed|exact Hf].
    + destruct (scan_log st) eqn:El; simpl; [discriminate|].
      intros H. apply IH in H as (Hf & Hw & Hm & Hl & Hp). simpl in *.
      repeat split; try assumption.
      constructor; [rewrite Er; role_listed|exact Hf].
    + destruct (scan_pic st) eqn:Ep; simpl; [discriminate|].
      intros H. apply IH in H as (Hf & Hw & Hm & Hl & Hp). simpl in *.
      repeat split; try assumption.
      constructor; [rewrite Er; role_listed|exact Hf].
Qed.

Lemma dict_get_None_keys (d : dict) (k : Z) :
  dict_get d k = None ↔ k ∉ dict_keys d.
Proof.
  induction d as [|[k0 v0] d IH]; simpl.
  - split; [intros _ H; now apply elem_of_nil in H|reflexivity].
  - rewrite not_elem_of_cons. destruct (Z.eqb_spec k0 k) as [->|Hne].
    + split; [discriminate|intros [H _]; contradiction].
    + rewrite IH. split; [intros H; split; [congruence|exact H]|tauto].
Qed.

(** Setting a key that the dictionary does not have appends it. *)
Lemma dict_set_fresh (d : dict) (k : Z) (v : Path) :
  dict_get d k = None → dict_set d k v = (d ++ [(k, v)])%list.
Proof.
  induction d as [|[k0 v0] d IH]; simpl; [reflexivity|].
  destruct (Z.eqb k0 k); [discriminate|]. intros H. now rewrite IH.
Qed.

(** What the second loop has built when it ends. *)
Lemma organize_wavs_value (re : list atom) (wavs : list Path) : ∀ d d',
  organize_wavs re wavs d = Value d' →
  NoDup (dict_keys d) →
  Forall (λ kv, wav_track_num re (path_name kv.2) = Some kv.1) d →
  dict_values d' = (dict_values d ++ wavs)%list
  ∧ NoDup (dict_keys d')
  ∧ Forall (λ kv, wav_track_num re (path_name kv.2) = Some kv.1) d'.
Proof.
  induction wavs as [|x l IH]; intros d d'; simpl.
  - intros [= <-] Hnd Hf. rewrite app_nil_r. auto.
  - unfold organize_wav at 1.
    destruct (group_track_num re (path_name x)) as [g|] eqn:Eg; [|discriminate].
    unfold int. destruct (int_of_str g) as [k|] eqn:Ei; [|discriminate]. simpl.
    destruct (dict_get d k) eqn:Ek; [discriminate|]. simpl.
    rewrite (dict_set_fresh d k x Ek).
    intros H Hnd Hf. apply IH in H as (Hv & Hn & Hf').
    + split; [|auto]. rewrite Hv. unfold dict_values.
      rewrite map_app, <- app_assoc. reflexivity.
    + unfold dict_keys. rewrite map_app. simpl. apply NoDup_app.
      split; [exact Hnd|]. split; [|apply NoDup_singleton].
      intros k' Hk'. rewrite elem_of_cons, elem_of_nil. intros [->|[]].
      apply dict_get_None_keys in Ek. contradiction.
    + apply Forall_app. split; [exact Hf|]. constructor; [|constructor].
      simpl. unfold wav_track_num. rewrite Eg. exact Ei.
Qed.

(** What the third loop has built when it ends: one track for each line,
    in the order of the lines. *)
Lemma parse_lines_value (lines : list string) : ∀ index acc trks,
  parse_lines index lines acc = Value trks →
  ∃ new, trks = (acc ++ new)%list
         ∧ Forall2 (λ line t, from_tab_delimited_line line = Ok t) lines new.
Proof.
  induction lines as [|line rest IH]; intros index acc trks; simpl.
  - intros [= <-]. exists []. rewrite app_nil_r. split; [reflexivity|constructor].
  - destruct (from_tab_delimited_line line) as [t|e] eqn:Et; [|discriminate].
    intros H. apply IH in H as (new & -> & Hf). exists (t :: new).
    rewrite <- app_assoc. split; [reflexivity|]. constructor; assumption.
Qed.

(** The three loops of [from_directory] for a directory that is accepted. *)
Lemma from_directory_value (re : list atom) (fs : FS) (items : list Path)
    (directory : Path) (a : _Album) :
  from_directory_with re fs items directory = Value a →
  ∃ st metadata lines,
    scan_items fs items scan_empty = Value st
    ∧ wav_filenames st ≠ []
    ∧ scan_metadata st = Some metadata
    ∧ organize_wavs re (wav_filenames st) [] = Value (wav_lookup a)
    ∧ readlines fs metadata = Ok lines
    ∧ parse_lines 0 lines [] = Value (tracks a)
    ∧ source_dir a = directory
    ∧ album_pic a = scan_pic st
    ∧ metadata_filename a = Some metadata
    ∧ log_filename a = scan_log st.
Proof.
  rewrite from_directory_with_scan.
  destruct (scan_items fs items scan_empty) as [st|w|e] eqn:Es; simpl;
    try discriminate.
  destruct (wav_filenames st) as [|x ws] eqn:Ew; [discriminate|].
  destruct (scan_metadata st) as [metadata|] eqn:Em; [|discriminate].
  destruct (organize_wavs re (x :: ws) []) as [d|w|e] eqn:Eo; simpl;
    try discriminate.
  destruct (readlines fs metadata) as [lines|e] eqn:Er; simpl; [|discriminate].
  destruct (parse_lines 0 lines []) as [trks|w|e] eqn:Ep; simpl; try discriminate.
  intros [= <-]. exists st, metadata, lines. simpl. rewrite Ew.
  split; [reflexivity|]. split; [discriminate|].
  split; [exact Em|]. split; [exact Eo|].
  split; [exact Er|]. split; [exact Ep|].
  split; [reflexivity|]. split; [reflexivity|].
  split; reflexivity.
Qed.

(** X5. In a directory that is accepted every entry is a regular file with
    one of the four roles; exactly one entry is the metadata file, at most
    one is a log and at most one a picture, and these are the files that
    the album names; and there is at least one wav file. *)
Theorem from_directory_roles (re : list atom) (fs : FS) (items : list Path)
    (directory : Path) (a : _Album) :
  from_directory_with re fs items directory = Value a →
  Forall (λ item, is_file fs item = true
                  ∧ role_of fs item ∈ [Wav; Metadata; Log; Picture]) items
  ∧ option_list (metadata_filename a) = with_role fs Metadata items
  ∧ length (with_role fs Metadata items) = 1
  ∧ option_list (log_filename a) = with_role fs Log items
  ∧ option_list (album_pic a) = with_role fs Picture items
  ∧ with_role fs Wav items ≠ []
  ∧ source_dir a = directory.
Proof.
  intros H.
  apply from_directory_value in H
    as (st & m & lines & Hs & Hw & Hm & _ & _ & _ & Hd & Hp & Hmf & Hl).
  apply scan_items_value in Hs as (Hf & Hws & Hms & Hls & Hps). simpl in *.
  rewrite Hm in Hms. rewrite Hmf, Hl, Hp, <- Hms, <- Hls, <- Hps, <- Hws.
  repeat split; try assumption; try reflexivity.
  eapply Forall_impl; [exact Hf|]. intros item Hr. split; [|exact Hr].
  unfold role_of in Hr. destruct (is_file fs item); [reflexivity|].
  simpl in Hr. exfalso.
  repeat (apply elem_of_cons in Hr as [Hr|Hr]; [discriminate|]).
  now apply elem_of_nil in Hr.
Qed.

Lemma from_directory_roles_witness :
  option_list (metadata_filename demo_album)
  = with_role demo_fs Metadata (demo_iterdir demo_fs ["rip"; "album"])
  ∧ length (with_role demo_fs Metadata (demo_iterdir demo_fs ["rip"; "album"])) = 1.
Proof.
  pose proof (from_directory_roles wav_regex demo_fs
                (demo_iterdir demo_fs ["rip"; "album"]) ["rip"; "album"] demo_album)
    as H.
  destruct H as (_ & H1 & H2 & _); [vm_compute; reflexivity|].
  split; [exact H1|exact H2].
Defined.

(** X6. The wav lookup of an accepted directory has one entry for each wav
    file, in the order of the listing; no track number occurs twice; and
    each key is the number that the pattern reads off the name of its
    file. *)
Theorem from_directory_wav_lookup (re : list atom) (fs : FS) (items : list Path)
    (directory : Path) (a : _Album) :
  from_directory_with re fs items directory = Value a →
  dict_values (wav_lookup a) = with_role fs Wav items
  ∧ NoDup (dict_keys (wav_lookup a))
  ∧ Forall (λ kv, wav_track_num re (path_name kv.2) = Some kv.1) (wav_lookup a).
Proof.
  intros H.
  apply from_directory_value in H
    as (st & m & lines & Hs & _ & _ & Ho & _).
  apply scan_items_value in Hs as (_ & Hws & _). simpl in Hws.
  apply organize_wavs_value in Ho as (Hv & Hn & Hf); [|constructor|constructor].
  simpl in Hv. rewrite Hv, Hws. auto.
Qed.

Lemma from_directory_wav_lookup_witness :
  dict_values (wav_lookup demo_album)
  = with_role demo_fs Wav (demo_iterdir demo_fs ["rip"; "album"])
  ∧ NoDup (dict_keys (wav_lookup demo_album)).
Proof.
  pose proof (from_directory_wav_lookup wav_regex demo_fs
                (demo_iterdir demo_fs ["rip"; "album"]) ["rip"; "album"] demo_album)
    as H.
  destruct H as (H1 & H2 & _); [vm_compute; reflexivity|].
  split; [exact H1|exact H2].
Defined.

(** X7. The tracks of an accepted directory are the lines of its metadata
    file, parsed one by one, in the order of the file. *)
Theorem from_directory_tracks (re : list atom) (fs : FS) (items : list Path)
    (directory : Path) (a : _Album) :
  from_directory_with re fs items directory = Value a →
  ∃ metadata lines,
    metadata_filename a = Some metadata
    ∧ readlines fs metadata = Ok lines
    ∧ Forall2 (λ line t, from_tab_delimited_line line = Ok t) lines (tracks a).
Proof.
  intros H.
  apply from_directory_value in H
    as (st & m & lines & _ & _ & _ & _ & Hr & Hp & _ & _ & Hm & _).
  exists m, lines. split; [exact Hm|]. split; [exact Hr|].
  apply parse_lines_value in Hp as (new & -> & Hf). exact Hf.
Qed.

Lemma from_directory_tracks_witness :
  ∃ metadata lines,
    metadata_filename demo_album = Some metadata
    ∧ readlines demo_fs metadata = Ok lines
    ∧ Forall2 (λ line t, from_tab_delimited_line line = Ok t) lines
        (tracks demo_album).
Proof.
  apply (from_directory_tracks wav_regex demo_fs
           (demo_iterdir demo_fs ["rip"; "album"]) ["rip"; "album"] demo_album).
  vm_compute. reflexivity.
Defined.

(** The loop over the lines stops at the first line that does not parse. *)
Lemma parse_lines_rejected (lines : list string) : ∀ index acc w,
  parse_lines index lines acc = Rejected w →
  ∃ k line ex,
    w = InvalidMetadata ex (index + k + 1)
    ∧ lines !! k = Some line
    ∧ from_tab_delimited_line line = Raise ex
    ∧ ∀ j l, j < k → lines !! j = Some l → ∃ t, from_tab_delimited_line l = Ok t.
Proof.
  induction lines as [|line rest IH]; intros index acc w; simpl; [discriminate|].
  destruct (from_tab_delimited_line line) as [t|e] eqn:Et.
  - intros H. apply IH in H as (k & l & ex & -> & Hk & Hl & Hbefore).
    exists (S k), l, ex. split; [f_equal; lia|]. split; [exact Hk|].
    split; [exact Hl|]. intros [|j] l' Hj Hl'.
    + simpl in Hl'. injection Hl' as <-. eauto.
    + simpl in Hl'. eapply Hbefore; [|exact Hl']. lia.
  - intros [= <-]. exists 0, line, e. split; [f_equal; lia|].
    split; [reflexivity|]. split; [exact Et|]. intros j l Hj. lia.
Qed.

(** X8. When a directory is rejected for invalid metadata, the number in
    the warning is the number, counted from 1, of the first line of the
    metadata file that the parser refuses, and the exception is the one
    that this line raises; all lines before it parse. *)
Theorem from_directory_invalid_metadata (re : list atom) (fs : FS)
    (items : list Path) (directory : Path) (ex : exn) (n : nat) :
  from_directory_with re fs items directory = Rejected (InvalidMetadata ex n) →
  ∃ metadata lines line,
    with_role fs Metadata items = [metadata]
    ∧ readlines fs metadata = Ok lines
    ∧ 1 ≤ n
    ∧ lines !! (n - 1) = Some line
    ∧ from_tab_delimited_line line = Raise ex
    ∧ ∀ j l, j < n - 1 → lines !! j = Some l → ∃ t, from_tab_delimited_line l = Ok t.
Proof.
  rewrite from_directory_with_scan.
  destruct (scan_items fs items scan_empty) as [st|w|e] eqn:Es; simpl;
    [|intros [= ->]; apply scan_items_early in Es; discriminate|discriminate].
  destruct (wav_filenames st) as [|x ws] eqn:Ew; [discriminate|].
  destruct (scan_metadata st) as [metadata|] eqn:Em; [|discriminate].
  destruct (organize_wavs re (x :: ws) []) as [d|w|e] eqn:Eo; simpl;
    [|intros [= ->]; apply organize_wavs_early in Eo; discriminate|discriminate].
  destruct (readlines fs metadata) as [lines|e] eqn:Er; simpl; [|discriminate].
  destruct (parse_lines 0 lines []) as [trks|w|e] eqn:Ep; simpl; try discriminate.
  intros [= ->]. apply parse_lines_rejected in Ep
    as (k & line & ex' & [= -> ->] & Hk & Hl & Hbefore).
  apply scan_items_value in Es as (_ & _ & Hms & _). simpl in Hms.
  rewrite Em in Hms. simpl in Hms.
  exists metadata, lines, line. split; [now rewrite <- Hms|].
  split; [exact Er|]. split; [lia|].
  replace (0 + k + 1 - 1) with k by lia.
  replace (k + 1 - 1) with k by lia.
  split; [exact Hk|]. split; [exact Hl|exact Hbefore].
Qed.

Lemma from_directory_invalid_metadata_witness :
  ∃ metadata lines line,
    with_role bad_line_fs Metadata (demo_iterdir bad_line_fs ["rip"; "album"])
    = [metadata]
    ∧ readlines bad_line_fs metadata = Ok lines
    ∧ 1 ≤ 2
    ∧ lines !! (2 - 1) = Some line
    ∧ from_tab_delimited_line line = Raise (AssertionError 1 "Blue in Green")
    ∧ ∀ j l, j < 2 - 1 → lines !! j = Some l → ∃ t, from_tab_delimited_line l = Ok t.
Proof.
  apply (from_directory_invalid_metadata wav_regex bad_line_fs
           (demo_iterdir bad_line_fs ["rip"; "album"]) ["rip"; "album"]
           (AssertionError 1 "Blue in Green") 2).
  vm_compute. reflexivity.
Defined.

(** X9. The name of an album that was classified from a metadata file with
    at least one line is that of the first line: its album artist, its
    year and its album title. *)
Theorem from_directory_name (re : list atom) (fs : FS) (items : list Path)
    (directory : Path) (a : _Album) (metadata : Path) (line : string)
    (rest : list string) :
  from_directory_with re fs items directory = Value a →
  metadata_filename a = Some metadata →
  readlines fs metadata = Ok (line :: rest) →
  ∃ t, from_tab_delimited_line line = Ok t
       ∧ name a
         = Ok (album_artist t +:+ " - " +:+ str_of_int (year t) +:+ " - "
               +:+ album_title t).
Proof.
  intros H Hm Hr.
  apply from_directory_value in H
    as (st & m & lines & _ & _ & _ & _ & Hr' & Hp & _ & _ & Hm' & _).
  assert (m = metadata) as -> by congruence.
  assert (lines = line :: rest) as -> by congruence.
  apply parse_lines_value in Hp as (new & Hn & Hf). simpl in Hn.
  destruct new as [|t new']; [inversion Hf|].
  assert (Ht : from_tab_delimited_line line = Ok t) by (inversion Hf; assumption).
  exists t. split; [exact Ht|]. unfold name. rewrite Hn. reflexivity.
Qed.

Lemma from_directory_name_witness :
  ∃ t, from_tab_delimited_line (demo_line "1" "So What") = Ok t
       ∧ name demo_album
         = Ok (album_artist t +:+ " - " +:+ str_of_int (year t) +:+ " - "
               +:+ album_title t).
Proof.
  apply (from_directory_name wav_regex demo_fs
           (demo_iterdir demo_fs ["rip"; "album"]) ["rip"; "album"] demo_album
           ["rip"; "album"; "album.txt"] (demo_line "1" "So What")
           [demo_line "2" "Blue in Green"]).
  - vm_compute. reflexivity.
  - reflexivity.
  - vm_compute. reflexivity.
Defined.

(** ** The encode stage, further *)

Lemma dict_pop_None (d : dict) (k k' : Z) :
  dict_get d k = None → dict_get (dict_pop d k').2 k = None.
Proof.
  induction d as [|[k0 v0] d IH]; simpl; [reflexivity|].
  destruct (Z.eqb_spec k0 k) as [->|Hne]; [discriminate|]. intros H.
  destruct (Z.eqb k0 k'); simpl; [exact H|].
  destruct (dict_pop d k') as [r d'] eqn:E. simpl in *.
  destruct (Z.eqb_spec k0 k); [contradiction|]. exact (IH H).
Qed.

Section EncodeFurther.

Variable path_str : Path → string.
Variable subprocess : string → option Path → FS → Z * FS.
Variable binary_name : string.

(** The loop over the tracks returns from [Encode] with [Failure] only. *)
Lemma encode_track_return album temp_dir track w lookup r w' lookup' :
  encode_track path_str subprocess binary_name album temp_dir track w lookup
  = Ok (Return r, w', lookup') → r = Failure.
Proof.
  unfold encode_track.
  destruct (dict_pop lookup (track_num track)) as [[wav|] l1].
  - intros H. apply bind_ok in H as (fs1 & _ & H).
    destruct (subprocess _ None fs1) as [code fs2].
    destruct (negb (Z.eqb code 0)); [congruence|].
    apply bind_ok in H as (flac & _ & H).
    apply bind_ok in H as (fs3 & _ & H). discriminate.
  - destruct (is_data_track (title track)); congruence.
Qed.

Lemma encode_tracks_return album temp_dir trks : ∀ w lookup r w' lookup',
  encode_tracks path_str subprocess binary_name album temp_dir trks w lookup
  = Ok (Return r, w', lookup') → r = Failure.
Proof.
  induction trks as [|t rest IH]; intros w lookup r w' lookup'; simpl;
    [discriminate|].
  intros H. apply bind_ok in H as ([[fl1 w1] l1] & Ht & H).
  destruct fl1 as [|r1]; [eapply IH; exact H|].
  injection H as -> _ _. eapply encode_track_return, Ht.
Qed.

(** A track without a wav file that is no data track ends the loop. *)
Lemma encode_track_missing album temp_dir track w lookup fl w' lookup' :
  dict_get lookup (track_num track) = None →
  is_data_track (title track) = false →
  encode_track path_str subprocess binary_name album temp_dir track w lookup
  = Ok (fl, w', lookup') →
  fl = Return Failure ∧ w' = write (TrackNotFound (track_num track)) w.
Proof.
  intros Hg Hd. unfold encode_track.
  pose proof (dict_pop_get lookup (track_num track)) as Hp.
  destruct (dict_pop lookup (track_num track)) as [popped l1]. simpl in Hp.
  rewrite Hp, Hg, Hd. intros [= <- <- <-]. auto.
Qed.

Lemma encode_tracks_missing album temp_dir trks : ∀ t w lookup fl w' lookup',
  t ∈ trks →
  dict_get lookup (track_num t) = None →
  is_data_track (title t) = false →
  encode_tracks path_str subprocess binary_name album temp_dir trks w lookup
  = Ok (fl, w', lookup') →
  fl = Return Failure.
Proof.
  induction trks as [|t0 rest IH]; intros t w lookup fl w' lookup' Hin Hg Hd; simpl.
  - now apply elem_of_nil in Hin.
  - intros H. apply bind_ok in H as ([[fl1 w1] l1] & Ht & H).
    destruct fl1 as [|r1].
    + apply elem_of_cons in Hin as [->|Hin].
      * apply encode_track_missing in Ht as [? _]; [discriminate|assumption..].
      * eapply IH; [exact Hin| |exact Hd|exact H].
        apply encode_track_lookup in Ht as ->. now apply dict_pop_None.
    + injection H as <- _ _. f_equal. eapply encode_track_return, Ht.
Qed.

(** X10. When a track of the album has no wav file under its number and its
    title is not that of a data track, [Encode] does not succeed: unless
    the output directory is already there, it returns [Failure]. *)
Theorem Encode_missing_track (w w' : world) (album album' : _Album)
    (output_dir : Path) (t : _TrackMetadata) (r : _InvokeResult) :
  t ∈ tracks album →
  dict_get (wav_lookup album) (track_num t) = None →
  is_data_track (title t) = false →
  Encode path_str subprocess binary_name w album output_dir = Ok (r, w', album') →
  (is_dir (w_fs w) output_dir = true ∧ r = Skipped)
  ∨ (is_dir (w_fs w) output_dir = false ∧ r = Failure).
Proof.
  intros Hin Hg Hd. unfold Encode.
  destruct (is_dir (w_fs w) output_dir); [intros [= <- _ _]; left; auto|].
  intros H. right. split; [reflexivity|].
  apply bind_ok in H as (temp_dir & _ & H).
  apply bind_ok in H as (fs2 & _ & H).
  apply bind_ok in H as ([[fl w3] lookup] & Hloop & H).
  apply (encode_tracks_missing album temp_dir (tracks album) t) in Hloop
    as ->; [|assumption..].
  congruence.
Qed.

(** X11. When [Encode] returns [Success], every wav file of the album was
    used: the lookup that it leaves is empty, each number of the lookup it
    was given is the number of a track, and nothing else of the album has
    changed. *)
Theorem Encode_success_reconciled (w w' : world) (album album' : _Album)
    (output_dir : Path) :
  Encode path_str subprocess binary_name w album output_dir
  = Ok (Success, w', album') →
  album' = set_lookup [] album
  ∧ ∀ k p, dict_get (wav_lookup album) k = Some p →
           ∃ t, t ∈ tracks album ∧ track_num t = k.
Proof.
  unfold Encode.
  destruct (is_dir (w_fs w) output_dir); [discriminate|].
  intros H.
  apply bind_ok in H as (temp_dir & _ & H).
  apply bind_ok in H as (fs2 & _ & H).
  apply bind_ok in H as ([[fl w3] lookup] & Hloop & H).
  destruct fl as [|r].
  2: { apply encode_tracks_return in Hloop as ->. discriminate. }
  destruct lookup as [|kv rest]; [|discriminate].
  apply bind_ok in H as (fs4 & _ & H).
  apply bind_ok in H as (fs5 & _ & [= <- <-]).
  split; [reflexivity|]. intros k p Hg.
  destruct (decide (Exists (λ t, track_num t = k) (tracks album))) as [He|Hn].
  - apply Exists_exists in He as (t & Hin & Ht). eauto.
  - exfalso.
    assert (Hall : ∀ t, t ∈ tracks album → track_num t ≠ k).
    { intros t Hin Ht. apply Hn, Exists_exists. eauto. }
    pose proof (encode_tracks_unmatched path_str subprocess binary_name album
                  temp_dir (tracks album) _ _ _ _ _ k p Hloop Hall Hg) as Hleft.
    discriminate.
Qed.

End EncodeFurther.

Lemma move_tree_target (src dst : Path) (fs : FS) (n : node) :
  fs !! src = Some n → move_tree src dst fs !! dst = Some n.
Proof.
  intros H. unfold move_tree. apply lookup_union_Some_l.
  apply elem_of_list_to_map_1'.
  - intros y Hy. apply list_elem_of_fmap in Hy as ([k v] & [= Hk ->] & Hin).
    apply elem_of_map_to_list, map_lookup_filter_Some in Hin as [Hv Hpre].
    simpl in *. destruct Hpre as [rest ->].
    rewrite drop_app_length in Hk.
    assert (rest = []) as ->.
    { apply (f_equal length) in Hk. rewrite length_app in Hk.
      destruct rest; [reflexivity|simpl in Hk; lia]. }
    rewrite app_nil_r in Hv. congruence.
  - apply list_elem_of_fmap. exists (src, n). split.
    + simpl. now rewrite drop_all, app_nil_r.
    + apply elem_of_map_to_list, map_lookup_filter_Some. split; [exact H|].
      simpl. reflexivity.
Qed.

Lemma move_tree_source (src dst : Path) (fs : FS) :
  ¬ dst `prefix_of` src → move_tree src dst fs !! src = None.
Proof.
  intros Hpre. unfold move_tree. apply lookup_union_None. split.
  - apply not_elem_of_list_to_map_1. intros Hin.
    apply list_elem_of_fmap in Hin as ([k v] & Hk & Hin).
    apply list_elem_of_fmap in Hin as ([k' v'] & [= Hk' Hv'] & _).
    apply Hpre. exists (drop (length src) k'). simpl in Hk. congruence.
  - unfold rmtree. apply map_lookup_filter_None. right.
    intros x _ Hn. apply Hn. simpl. reflexivity.
Qed.

Lemma same_length_no_prefix (p q : Path) :
  length p = length q → p ≠ q → ¬ p `prefix_of` q.
Proof.
  intros Hlen Hne [k ->]. rewrite length_app in Hlen.
  destruct k; [|simpl in Hlen; lia]. rewrite app_nil_r in Hne. congruence.
Qed.

(** What a rename that is done has moved. *)
Lemma rename_done (src dst : Path) (fs fs' : FS) :
  rename src dst fs = Ok fs' →
  fs' !! dst = fs !! src ∧ is_Some (fs !! src)
  ∧ (¬ dst `prefix_of` src → fs' !! src = None).
Proof.
  unfold rename. destruct (fs !! src) as [n|] eqn:Es; [|discriminate].
  destruct (bool_decide (src = dst)) eqn:Eb.
  - apply bool_decide_eq_true in Eb as <-. intros [= <-].
    split; [exact Es|]. split; [eauto|]. intros Hn. exfalso. now apply Hn.
  - destruct (fs !! dst); [discriminate|].
    destruct (is_dir fs (path_parent dst)); [|discriminate].
    intros [= <-]. split; [now apply move_tree_target|]. split; [eauto|].
    apply move_tree_source.
Qed.



Lemma Encode_missing_track_witness :
  (is_dir (w_fs demo_world) ["flac"; "album"] = true ∧ Failure = Skipped)
  ∨ (is_dir (w_fs demo_world) ["flac"; "album"] = false ∧ Failure = Failure).
Proof.
  pose (r := ok_or (Skipped, demo_world, demo_album)
               (Encode demo_path_str demo_subprocess "flac" demo_world
                  missing_wav_album ["flac"; "album"])).
  apply (Encode_missing_track demo_path_str demo_subprocess "flac" demo_world
           r.1.2 missing_wav_album r.2 ["flac"; "album"]
           (demo_track 5 "Flamenco Sketches") Failure).
  - apply list_elem_of_further, list_elem_of_further, list_elem_of_here.
  - reflexivity.
  - reflexivity.
  - vm_compute. reflexivity.
Defined.

Lemma Encode_success_reconciled_witness :
  set_lookup [] demo_album = set_lookup [] demo_album
  ∧ ∀ k p, dict_get (wav_lookup demo_album) k = Some p →
           ∃ t, t ∈ tracks demo_album ∧ track_num t = k.
Proof.
  apply (Encode_success_reconciled demo_path_str demo_subprocess "flac" demo_world
           encoded_world demo_album (set_lookup [] demo_album) ["flac"; "album"]).
  vm_compute. reflexivity.
Defined.

(** ** The archive stage *)

Lemma ends_with_app (c : ascii) (s t : string) :
  t ≠ EmptyString → ends_with c (s +:+ t) = ends_with c t.
Proof.
  intros Ht. induction s as [|a s IH]; norm_append; [reflexivity|].
  simpl. destruct (s +:+ t) as [|b r] eqn:E; [|exact IH].
  destruct s; [rewrite append_nil in E; contradiction|discriminate].
Qed.

Lemma append_not_empty (s t : string) : t ≠ EmptyString → s +:+ t ≠ EmptyString.
Proof. destruct s; norm_append; [tauto|discriminate]. Qed.

(** The temporary file of [Archive] is a sibling of the archive and never
    the archive itself, whatever the output name is. *)
Lemma archive_temp_filename (output_dir : Path) (output_name : string) :
  ∃ temp_name,
    with_suffix (archive_filename output_dir output_name) ".7z_temp"
    = Ok (output_dir ++ [temp_name])%list
    ∧ archive_filename output_dir output_name
      = (output_dir ++ [output_name +:+ ".7z"])%list
    ∧ temp_name ≠ output_name +:+ ".7z".
Proof.
  assert (Hne : output_name +:+ ".7z" ≠ EmptyString)
    by (apply append_not_empty; discriminate).
  assert (Hf : archive_filename output_dir output_name
               = (output_dir ++ [output_name +:+ ".7z"])%list).
  { unfold archive_filename, path_join.
    destruct (output_name +:+ ".7z"); [contradiction|reflexivity]. }
  exists (name_stem (output_name +:+ ".7z") +:+ ".7z_temp").
  split; [|split; [exact Hf|]].
  - rewrite Hf. unfold with_suffix, path_name, path_parent.
    rewrite List.last_last, removelast_last.
    destruct (output_name +:+ ".7z"); [contradiction|reflexivity].
  - intros E. apply (f_equal (ends_with "p"%char)) in E.
    rewrite !ends_with_app in E by discriminate. discriminate.
Qed.

Section ArchiveProperties.

Variable path_str : Path → string.
Variable subprocess : string → option Path → FS → Z * FS.
Variable binary_name : string.

(** X14. When [Archive] returns [Failure], an archive that was not there
    before is not there after, whatever the output name is, as long as the
    archiver itself writes nothing under the name of the archive. *)
Theorem Archive_failure_no_archive (w w' : world) (album : _Album)
    (output_dir : Path) (output_name : string) :
  w_fs w !! archive_filename output_dir output_name = None →
  (∀ command_line cwd fs,
     fs !! archive_filename output_dir output_name = None →
     (subprocess command_line cwd fs).2 !! archive_filename output_dir output_name
     = None) →
  Archive path_str subprocess binary_name w album output_dir output_name
  = Ok (Failure, w') →
  w_fs w' !! archive_filename output_dir output_name = None.
Proof.
  intros Habs Hframe. unfold Archive.
  fold (archive_filename output_dir output_name).
  destruct (is_file (w_fs w) (archive_filename output_dir output_name));
    [discriminate|].
  intros H. apply bind_ok in H as (temp & _ & H).
  apply bind_ok in H as (fs1 & Hu & H).
  apply (unlink_absent (archive_filename output_dir output_name)) in Hu;
    [|exact Habs].
  pose proof (Hframe (binary_name +:+ " a -t7z -mx9 -sccUTF-8 -scsUTF-8 -ssw "
                      +:+ dquote +:+ path_str temp +:+ dquote)
                (Some (source_dir album)) fs1 Hu) as H2.
  destruct (subprocess _ (Some (source_dir album)) fs1) as [code fs2].
  simpl in H2. destruct (negb (Z.eqb code 0)); [now injection H as <-|].
  pose proof (Hframe (binary_name +:+ " t " +:+ dquote +:+ path_str temp +:+ dquote)
                None fs2 H2) as H3.
  destruct (subprocess _ None fs2) as [code' fs3]. simpl in H3.
  destruct (negb (Z.eqb code' 0)); [now injection H as <-|].
  apply bind_ok in H as (fs4 & _ & H). discriminate.
Qed.

(** X15. When [Archive] returns [Success], the archive is there and holds
    what was in the temporary file, which is gone; and once the archive is
    a file, the next call returns [Skipped] and changes nothing. *)
Theorem Archive_success_committed (w w' : world) (album : _Album)
    (output_dir : Path) (output_name : string) :
  Archive path_str subprocess binary_name w album output_dir output_name
  = Ok (Success, w') →
  is_file (w_fs w) (archive_filename output_dir output_name) = false
  ∧ is_Some (w_fs w' !! archive_filename output_dir output_name)
  ∧ (∀ temp, with_suffix (archive_filename output_dir output_name) ".7z_temp"
             = Ok temp → w_fs w' !! temp = None)
  ∧ (is_file (w_fs w') (archive_filename output_dir output_name) = true →
     ∀ album', Archive path_str subprocess binary_name w' album' output_dir
                 output_name = Ok (Skipped, w')).
Proof.
  unfold Archive. fold (archive_filename output_dir output_name).
  destruct (is_file (w_fs w) (archive_filename output_dir output_name));
    [discriminate|].
  destruct (archive_temp_filename output_dir output_name)
    as (temp_name & Htmp & Hf & Hne).
  rewrite Htmp. cbn. intros H. split; [reflexivity|].
  apply bind_ok in H as (fs1 & _ & H).
  destruct (subprocess _ (Some (source_dir album)) fs1) as [code fs2].
  destruct (negb (Z.eqb code 0)); [discriminate|].
  destruct (subprocess _ None fs2) as [code' fs3].
  destruct (negb (Z.eqb code' 0)); [discriminate|].
  apply bind_ok in H as (fs4 & Hr & [= <-]). simpl.
  apply rename_done in Hr as (Hdst & Hsrc & Hgone).
  split; [now rewrite Hdst|]. split.
  - intros temp [= <-]. apply Hgone. rewrite Hf.
    apply same_length_no_prefix; [now rewrite !length_app|].
    intros E. apply app_inv_head in E. congruence.
  - intros Hfile album'. now rewrite Hfile.
Qed.

End ArchiveProperties.

Lemma Archive_failure_no_archive_witness :
  w_fs demo_world !! archive_filename ["archive"] "album" = None.
Proof.
  apply (Archive_failure_no_archive demo_path_str failing_archiver "7z" demo_world
           demo_world demo_album ["archive"] "album").
  - vm_compute. reflexivity.
  - intros command_line cwd fs H. unfold failing_archiver.
    destruct (String.prefix "7z a" command_line); exact H.
  - vm_compute. reflexivity.
Defined.

Lemma Archive_success_committed_witness :
  ∃ w',
    Archive demo_path_str demo_subprocess "7z" demo_world demo_album ["archive"]
      "album" = Ok (Success, w')
    ∧ is_Some (w_fs w' !! archive_filename ["archive"] "album")
    ∧ w_fs w' !! ["archive"; "album.7z_temp"] = None
    ∧ Archive demo_path_str demo_subprocess "7z" w' demo_album ["archive"] "album"
      = Ok (Skipped, w').
Proof.
  pose (r := ok_or (Skipped, demo_world)
               (Archive demo_path_str demo_subprocess "7z" demo_world demo_album
                  ["archive"] "album")).
  assert (E : Archive demo_path_str demo_subprocess "7z" demo_world demo_album
                ["archive"] "album" = Ok (Success, r.2))
    by (vm_compute; reflexivity).
  exists r.2. split; [exact E|].
  destruct (Archive_success_committed demo_path_str demo_subprocess "7z" demo_world
              r.2 demo_album ["archive"] "album" E) as (_ & H1 & H2 & H3).
  split; [exact H1|]. split; [apply H2; reflexivity|].
  apply H3. vm_compute. reflexivity.
Defined.

(** ** The batch, further *)

Lemma from_directory_source_dir (re : list atom) (fs : FS) (items : list Path)
    (directory : Path) (a : _Album) :
  from_directory_with re fs items directory = Value a → source_dir a = directory.
Proof.
  intros H. apply from_directory_value in H
    as (st & m & lines & _ & _ & _ & _ & _ & _ & Hd & _). exact Hd.
Qed.

(** X16. The classification of the directories changes no file; it gives
    each directory either an album or a warning and goes on after a
    rejection; the albums come in the order of the directories, each under
    the index of its directory. *)
Theorem classify_all_spec (iterdir : FS → Path → list Path) (re : list atom)
    (directories : list Path) : ∀ index w albums w' albums',
  classify_all iterdir re index directories w albums = Ok (w', albums') →
  w_fs w' = w_fs w
  ∧ ∃ new warnings,
      albums' = (albums ++ new)%list
      ∧ w_log w' = (w_log w ++ map Warn warnings)%list
      ∧ length new + length warnings = length directories
      ∧ StronglySorted lt (ids new)
      ∧ Forall (λ ia, index ≤ ia.1
                      ∧ directories !! (ia.1 - index) = Some (source_dir ia.2)) new.
Proof.
  induction directories as [|d rest IH]; intros index w albums w' albums'; simpl.
  - intros [= <- <-]. split; [reflexivity|]. exists [], [].
    rewrite !app_nil_r. repeat split; constructor.
  - destruct (from_directory_with re (w_fs w) (iterdir (w_fs w) d) d)
      as [album|warning|e] eqn:Ed; [| |discriminate].
    + intros H. apply IH in H as (Hfs & new & ws & -> & Hlog & Hlen & Hsort & Hf).
      split; [exact Hfs|]. exists ((index, album) :: new), ws.
      rewrite <- app_assoc. split; [reflexivity|]. split; [exact Hlog|].
      split; [simpl; lia|]. split.
      * simpl. constructor; [exact Hsort|].
        apply Forall_fmap. eapply Forall_impl; [exact Hf|].
        intros [i a] [Hi _]. simpl in *. lia.
      * constructor.
        -- simpl. rewrite Nat.sub_diag. simpl. split; [lia|].
           f_equal. symmetry. eapply from_directory_source_dir, Ed.
        -- eapply Forall_impl; [exact Hf|]. intros [i a] [Hi Hl]. simpl in *.
           split; [lia|]. replace (i - index) with (S (i - S index)) by lia.
           exact Hl.
    + intros H. apply IH in H as (Hfs & new & ws & -> & Hlog & Hlen & Hsort & Hf).
      split; [exact Hfs|]. exists new, (warning :: ws).
      split; [reflexivity|]. split; [simpl in *; now rewrite Hlog, <- app_assoc|].
      split; [simpl; lia|]. split; [exact Hsort|].
      eapply Forall_impl; [exact Hf|]. intros [i a] [Hi Hl]. simpl in *.
      split; [lia|]. replace (i - index) with (S (i - S index)) by lia.
      exact Hl.
Qed.

Lemma classify_all_spec_witness :
  w_fs demo_world = w_fs demo_world
  ∧ ∃ new warnings,
      [(0, demo_album)] = ([] ++ new)%list
      ∧ w_log demo_world = (w_log demo_world ++ map Warn warnings)%list
      ∧ length new + length warnings = length [["rip"; "album"]]
      ∧ StronglySorted lt (ids new)
      ∧ Forall (λ ia, 0 ≤ ia.1
                      ∧ [["rip"; "album"]] !! (ia.1 - 0) = Some (source_dir ia.2)) new.
Proof.
  apply (classify_all_spec demo_iterdir wav_regex [["rip"; "album"]] 0 demo_world []
           demo_world [(0, demo_album)]).
  vm_compute. reflexivity.
Defined.

Section EntryPointFurther.

Variable path_str : Path → string.
Variable subprocess : string → option Path → FS → Z * FS.
Variable iterdir : FS → Path → list Path.
Variable os_name : string.

Lemma classify_all_fs (re : list atom) (directories : list Path) :
  ∀ index w albums w' albums',
  classify_all iterdir re index directories w albums = Ok (w', albums') →
  w_fs w' = w_fs w.
Proof.
  induction directories as [|d rest IH]; intros index w albums w' albums'; simpl.
  - now intros [= <- <-].
  - destruct (from_directory_with re (w_fs w) (iterdir (w_fs w) d) d);
      [| |discriminate]; intros H; apply IH in H; exact H.
Qed.

(** X17. When no directory is accepted the run ends at once: neither tool
    is looked for, no stage is called and no file has changed. *)
Theorem EntryPoint_no_albums (w w1 : world)
    (input_directory archive_output_dir flac_output_dir : Path) :
  classify_all iterdir wav_regex 0 (discover iterdir (w_fs w) input_directory).1 w []
  = Ok (w1, []) →
  EntryPoint path_str subprocess iterdir os_name w input_directory
    archive_output_dir flac_output_dir = ([], Ok w1)
  ∧ w_fs w1 = w_fs w.
Proof.
  intros H. split; [|eapply classify_all_fs, H].
  unfold EntryPoint.
  destruct (discover iterdir (w_fs w) input_directory) as [dirs src].
  simpl in H. rewrite H. reflexivity.
Qed.

(** X18. On a platform other than Windows the run calls neither stage; when
    albums were found and the encoder was found, it ends with
    [NotImplementedError]. *)
Theorem EntryPoint_not_windows (w : world)
    (input_directory archive_output_dir flac_output_dir : Path) :
  os_name ≠ "nt" →
  (EntryPoint path_str subprocess iterdir os_name w input_directory
     archive_output_dir flac_output_dir).1 = []
  ∧ ∀ w1 a albums w2 encoder,
      classify_all iterdir wav_regex 0
        (discover iterdir (w_fs w) input_directory).1 w [] = Ok (w1, a :: albums) →
      _GetEncoder path_str subprocess w1 = (w2, Some encoder) →
      (EntryPoint path_str subprocess iterdir os_name w input_directory
         archive_output_dir flac_output_dir).2 = Raise NotImplementedError.
Proof.
  intros Hos. apply String.eqb_neq in Hos.
  unfold EntryPoint.
  destruct (discover iterdir (w_fs w) input_directory) as [dirs src]. simpl.
  destruct (classify_all iterdir wav_regex 0 dirs w []) as [[w1 [|a albums]]|e];
    [split; [reflexivity|intros; discriminate]|
     |split; [reflexivity|intros; discriminate]].
  destruct (_GetEncoder path_str subprocess w1) as [w2 [encoder|]] eqn:Ee.
  - unfold _GetArchiver. rewrite Hos. simpl. split; [reflexivity|].
    intros; reflexivity.
  - split; [reflexivity|]. intros w1' a' albums' w2' enc' [= <- <- <-] He.
    rewrite Ee in He. discriminate.
Qed.

End EntryPointFurther.

Lemma EntryPoint_no_albums_witness :
  EntryPoint demo_path_str demo_subprocess empty_iterdir "nt" empty_world
    ["rip"] ["archive"] ["flac"]
  = ([], Ok (write (Warn NoWavFiles) empty_world))
  ∧ w_fs (write (Warn NoWavFiles) empty_world) = w_fs empty_world.
Proof.
  apply (EntryPoint_no_albums demo_path_str demo_subprocess empty_iterdir "nt"
           empty_world (write (Warn NoWavFiles) empty_world)
           ["rip"] ["archive"] ["flac"]).
  vm_compute. reflexivity.
Defined.

Lemma EntryPoint_not_windows_witness :
  (EntryPoint demo_path_str demo_subprocess demo_iterdir "posix" demo_world
     ["rip"] ["archive"] ["flac"]).1 = []
  ∧ (EntryPoint demo_path_str demo_subprocess demo_iterdir "posix" demo_world
       ["rip"] ["archive"] ["flac"]).2 = Raise NotImplementedError.
Proof.
  destruct (EntryPoint_not_windows demo_path_str demo_subprocess demo_iterdir
              "posix" demo_world ["rip"] ["archive"] ["flac"]) as [H1 H2];
    [discriminate|].
  split; [exact H1|].
  apply (H2 demo_world (0, demo_album) [] demo_world
            (Encode demo_path_str demo_subprocess "flac")).
  - vm_compute. reflexivity.
  - reflexivity.
Defined.

Lemma encode_calls_app (l k : list event) :
  encode_calls (l ++ k) = (encode_calls l ++ encode_calls k)%list.
Proof. unfold encode_calls. apply omap_app. Qed.

Lemma archive_handled_app (l k : list event) :
  archive_handled (l ++ k) = (archive_handled l ++ archive_handled k)%list.
Proof. unfold archive_handled. apply omap_app. Qed.

Lemma encode_calls_archive (evs : list event) :
  Forall (λ e, is_archive_event e = true) evs → encode_calls evs = [].
Proof.
  induction 1 as [|e l He _ IH]; [reflexivity|].
  destruct e; try discriminate; exact IH.
Qed.

Lemma archive_handled_encode (evs : list event) :
  Forall (λ e, is_encode_event e = true) evs → archive_handled evs = [].
Proof.
  induction 1 as [|e l He _ IH]; [reflexivity|].
  destruct e; try discriminate; exact IH.
Qed.

(** A loop of [_EncodeContent] that no exception ends has called the
    encoder for every album, in the order of the list. *)
Lemma encode_loop_calls (encoder : encoder_t) (flac_output_dir : Path)
    (is_source : bool) (albums : albums_t) : ∀ w errs done evs res,
  encode_loop encoder flac_output_dir is_source albums w errs done = (evs, Ok res) →
  encode_calls evs = ids albums.
Proof.
  induction albums as [|[id album] rest IH]; intros w errs done evs res; simpl.
  - now intros [= <- _].
  - destruct (name album) as [nm|e]; [|discriminate].
    destruct (encoder w album _) as [[[r w1] album1]|e]; [|discriminate].
    destruct (encode_loop _ _ _ rest _ _ _) as [evs1 res1] eqn:E.
    intros [= <- ->]. simpl. f_equal. eapply IH, E.
Qed.

(** A loop of [_ArchiveContent] that no exception ends has come to every
    album, in the order of the list. *)
Lemma archive_loop_handled (archiver : archiver_t) (archive_output_dir : Path)
    (is_source : bool) (errs : gset nat) (albums : albums_t) : ∀ w evs w',
  _ArchiveContent w archive_output_dir albums archiver errs is_source
  = (evs, Ok w') →
  archive_handled evs = ids albums.
Proof.
  induction albums as [|[id album] rest IH]; intros w evs w'; simpl.
  - now intros [= <- _].
  - destruct (name album) as [nm|e]; [|discriminate].
    destruct (bool_decide (id ∈ errs)).
    + destruct (_ArchiveContent _ _ rest _ _ _) as [evs1 res1] eqn:E.
      intros [= <- ->]. simpl. f_equal. eapply IH, E.
    + destruct (archiver w album _ _) as [[r w1]|e]; [|discriminate].
      destruct (_ArchiveContent _ _ rest _ _ _) as [evs1 res1] eqn:E.
      intros [= <- ->]. simpl. f_equal. eapply IH, E.
Qed.

Section EntryPointCoverage.

Variable path_str : Path → string.
Variable subprocess : string → option Path → FS → Z * FS.
Variable iterdir : FS → Path → list Path.
Variable os_name : string.

(** X19. A run that calls a stage and that no exception ends has encoded
    every album that was found, once, in the order of the directories, and
    has then come to every album again, in the same order, to archive it or
    to skip it. *)
Theorem EntryPoint_covers_all (w w1 w' : world) (albums : albums_t)
    (input_directory archive_output_dir flac_output_dir : Path) :
  let run := EntryPoint path_str subprocess iterdir os_name w input_directory
               archive_output_dir flac_output_dir in
  classify_all iterdir wav_regex 0 (discover iterdir (w_fs w) input_directory).1 w []
  = Ok (w1, albums) →
  run.1 ≠ [] →
  run.2 = Ok w' →
  encode_calls run.1 = ids albums ∧ archive_handled run.1 = ids albums.
Proof.
  intros run Hc. subst run. unfold EntryPoint.
  destruct (discover iterdir (w_fs w) input_directory) as [dirs src].
  simpl in Hc. rewrite Hc.
  destruct albums as [|a0 albums0]; [simpl; congruence|].
  destruct (_GetEncoder path_str subprocess w1) as [w2 [encoder|]];
    [|simpl; congruence].
  destruct (_GetArchiver path_str subprocess os_name w2) as [[w3 [archiver|]]|e];
    [|simpl; congruence|simpl; congruence].
  unfold _EncodeContent.
  destruct (encode_loop encoder flac_output_dir src (a0 :: albums0) w3 ∅ [])
    as [evs [[[errs w4] albums']|e]] eqn:Ee; [|simpl; discriminate].
  destruct (_ArchiveContent w4 archive_output_dir albums' archiver errs src)
    as [evs' res] eqn:Ea.
  simpl. intros _ ->.
  pose proof (encode_loop_events _ _ _ _ _ _ _ _ _ Ee) as [Hev _].
  pose proof (encode_loop_errors _ _ _ _ _ _ _ _ _ _ _ Ee) as [Hids _].
  pose proof (archive_events _ _ _ _ _ _ _ _ Ea) as [Hav _].
  simpl in Hids.
  rewrite encode_calls_app, archive_handled_app.
  rewrite (encode_calls_archive evs' Hav), (archive_handled_encode evs Hev).
  rewrite app_nil_r. simpl.
  rewrite (encode_loop_calls _ _ _ _ _ _ _ _ _ Ee).
  rewrite (archive_loop_handled _ _ _ _ _ _ _ _ Ea), Hids. auto.
Qed.

End EntryPointCoverage.

Lemma EntryPoint_covers_all_witness :
  encode_calls (EntryPoint demo_path_str demo_subprocess demo_iterdir "nt"
                  demo_world ["rip"] ["archive"] ["flac"]).1 = ids [(0, demo_album)]
  ∧ archive_handled (EntryPoint demo_path_str demo_subprocess demo_iterdir "nt"
                       demo_world ["rip"] ["archive"] ["flac"]).1
    = ids [(0, demo_album)].
Proof.
  apply (EntryPoint_covers_all demo_path_str demo_subprocess demo_iterdir "nt"
           demo_world demo_world
           (ok_or demo_world
              (EntryPoint demo_path_str demo_subprocess demo_iterdir "nt"
                 demo_world ["rip"] ["archive"] ["flac"]).2)
           [(0, demo_album)] ["rip"] ["archive"] ["flac"]).
  - vm_compute. reflexivity.
  - vm_compute. discriminate.
  - vm_compute. reflexivity.
Defined.

(** ** The older implementation *)

Section LegacyOrder.

Variable path_str : Path → string.
Variable subprocess : string → option Path → FS → Z * FS.
Variable iterdir : FS → Path → list Path.
Variable os_name : string.

Lemma Legacy_archive_loop_events (archive_output_dir : Path) (is_source : bool)
    (albums : albums_t) : ∀ w evs res,
  Legacy.archive_loop path_str subprocess archive_output_dir is_source albums w
  = (evs, res) →
  ∃ l, evs = map ArchiveCalled l
       ∧ l `prefix_of` ids albums
       ∧ ∀ w', res = Ok w' → l = ids albums.
Proof.
  induction albums as [|[id album] rest IH]; intros w evs res; simpl.
  - intros [= <- <-]. exists []. split; [reflexivity|]. split; [reflexivity|].
    reflexivity.
  - destruct (Legacy.Archive path_str subprocess "7z" w album _ _) as [w1|e].
    + destruct (Legacy.archive_loop _ _ _ _ rest w1) as [evs1 res1] eqn:E.
      apply IH in E as (l & -> & Hpre & Hall). intros [= <- <-].
      exists (id :: l). split; [reflexivity|].
      split; [now apply prefix_cons|]. intros w' Hw. f_equal. eapply Hall, Hw.
    + intros [= <- <-]. exists [id]. split; [reflexivity|].
      split; [apply prefix_cons, prefix_nil|]. discriminate.
Qed.

Lemma Legacy_encode_loop_events (flac_output_dir : Path) (is_source : bool)
    (albums : albums_t) : ∀ w evs res,
  Legacy.encode_loop path_str subprocess flac_output_dir is_source albums w
  = (evs, res) →
  ∃ l, evs = map EncodeCalled l
       ∧ l `prefix_of` ids albums
       ∧ ∀ w', res = Ok w' → l = ids albums.
Proof.
  induction albums as [|[id album] rest IH]; intros w evs res; simpl.
  - intros [= <- <-]. exists []. split; [reflexivity|]. split; [reflexivity|].
    reflexivity.
  - destruct (Legacy.Encode path_str subprocess "flac" w album _) as [[w1 a1]|e].
    + destruct (Legacy.encode_loop _ _ _ _ rest w1) as [evs1 res1] eqn:E.
      apply IH in E as (l & -> & Hpre & Hall). intros [= <- <-].
      exists (id :: l). split; [reflexivity|].
      split; [now apply prefix_cons|]. intros w' Hw. f_equal. eapply Hall, Hw.
    + intros [= <- <-]. exists [id]. split; [reflexivity|].
      split; [apply prefix_cons, prefix_nil|]. discriminate.
Qed.

Lemma Legacy_GetArchiver_missing (w w' : world) :
  Legacy._GetArchiver subprocess os_name w = Ok (w', false) →
  ToolNotAvailable "7z" ∈ w_log w'.
Proof.
  unfold Legacy._GetArchiver.
  destruct (String.eqb os_name "nt"); [|discriminate].
  destruct (subprocess "7z" None (w_fs w)) as [code fs'].
  destruct (negb (Z.eqb code 0)); [|discriminate].
  intros [= <-]. simpl. apply elem_of_app. right. apply list_elem_of_here.
Qed.

Lemma Legacy_GetEncoder_missing (w w' : world) :
  Legacy._GetEncoder subprocess w = (w', false) →
  ToolNotAvailable "flac --version" ∈ w_log w'.
Proof.
  unfold Legacy._GetEncoder.
  destruct (subprocess "flac --version" None (w_fs w)) as [code fs'].
  destruct (negb (Z.eqb code 0)); [|discriminate].
  intros [= <-]. simpl. apply elem_of_app. right. apply list_elem_of_here.
Qed.

(** X20. The older [EntryPoint] archives first: the events of a run are
    calls of the archiver followed by calls of the encoder, each in the
    order of the albums; the encoder is called only after the archiver was
    called for every album; and a run that no exception ends has either
    archived and then encoded every album that was found, whatever the
    encoding gave, or has called no stage and has reported a tool as not
    available. *)
Theorem Legacy_EntryPoint_order (w : world)
    (input_directory archive_output_dir flac_output_dir : Path) :
  let run := Legacy.EntryPoint path_str subprocess iterdir os_name w
               input_directory archive_output_dir flac_output_dir in
  ∃ archived encoded,
    run.1 = (map ArchiveCalled archived ++ map EncodeCalled encoded)%list
    ∧ ∀ w1 albums,
        classify_all iterdir Legacy.wav_regex 0
          (discover iterdir (w_fs w) input_directory).1 w [] = Ok (w1, albums) →
        archived `prefix_of` ids albums
        ∧ encoded `prefix_of` ids albums
        ∧ (encoded ≠ [] → archived = ids albums)
        ∧ (∀ w', run.2 = Ok w' →
                 (archived = ids albums ∧ encoded = ids albums)
                 ∨ (run.1 = [] ∧ ∃ command_line,
                                   ToolNotAvailable command_line ∈ w_log w')).
Proof.
  unfold Legacy.EntryPoint.
  destruct (discover iterdir (w_fs w) input_directory) as [dirs src]. simpl.
  destruct (classify_all iterdir Legacy.wav_regex 0 dirs w [])
    as [[w1 albums]|e] eqn:Ec.
  2: { exists [], []. split; [reflexivity|]. intros; discriminate. }
  destruct albums as [|a0 albums0].
  { exists [], []. split; [reflexivity|]. intros w1' albums' [= <- <-].
    split; [apply prefix_nil|]. split; [apply prefix_nil|].
    split; [congruence|]. intros w' _. left. split; reflexivity. }
  destruct (Legacy._GetArchiver subprocess os_name w1) as [[w2 [|]]|e] eqn:Ear.
  3: { exists [], []. split; [reflexivity|]. intros w1' albums' [= <- <-].
       split; [apply prefix_nil|]. split; [apply prefix_nil|].
       split; [congruence|]. intros w' Hw. discriminate. }
  2: { exists [], []. split; [reflexivity|]. intros w1' albums' [= <- <-].
       split; [apply prefix_nil|]. split; [apply prefix_nil|].
       split; [congruence|]. intros w' [= <-]. right. split; [reflexivity|].
       exists "7z". eapply Legacy_GetArchiver_missing, Ear. }
  destruct (Legacy._GetEncoder subprocess w2) as [w3 [|]] eqn:Een.
  2: { exists [], []. split; [reflexivity|]. intros w1' albums' [= <- <-].
       split; [apply prefix_nil|]. split; [apply prefix_nil|].
       split; [congruence|]. intros w' [= <-]. right. split; [reflexivity|].
       exists "flac --version". eapply Legacy_GetEncoder_missing, Een. }
  destruct (Legacy.archive_loop path_str subprocess archive_output_dir src
              (a0 :: albums0) w3) as [evs [w4|e]] eqn:Ea.
  - apply Legacy_archive_loop_events in Ea as (la & -> & Hpa & Halla).
    destruct (Legacy.encode_loop path_str subprocess flac_output_dir src
                (a0 :: albums0) w4) as [evs' res] eqn:Ee.
    apply Legacy_encode_loop_events in Ee as (le & -> & Hpe & Halle).
    exists la, le. simpl. split; [reflexivity|].
    intros w1' albums' [= <- <-].
    split; [exact Hpa|]. split; [exact Hpe|].
    split; [intros _; eapply Halla; reflexivity|].
    intros w' Hw. left.
    split; [eapply Halla; reflexivity|eapply Halle, Hw].
  - apply Legacy_archive_loop_events in Ea as (la & -> & Hpa & Halla).
    exists la, []. simpl. rewrite app_nil_r. split; [reflexivity|].
    intros w1' albums' [= <- <-].
    split; [exact Hpa|]. split; [apply prefix_nil|].
    split; [congruence|]. intros w' Hw. discriminate.
Qed.

End LegacyOrder.

(** ** Data tracks, failing tools *)

Lemma dict_pop_absent (d : dict) (k : Z) :
  dict_get d k = None → dict_pop d k = (None, d).
Proof.
  induction d as [|[k0 v0] d IH]; simpl; [reflexivity|].
  destruct (Z.eqb k0 k); [discriminate|]. intros H. now rewrite (IH H).
Qed.

(** X21. A data track is transparent to the current [Encode]: a track
    that has no wav file under its number and whose title is "Data" or
    "Data Track" can be taken out of the tracks, wherever it stands, and
    the loop over the tracks gives the same result, the same files and the
    same lookup. The older [Encode] has no such case: its loop returns at
    this track with the error written. *)
Theorem data_track_transparent (path_str : Path → string)
    (subprocess : string → option Path → FS → Z * FS) (binary_name : string)
    (album : _Album) (temp_dir : Path) (track : _TrackMetadata)
    (before after : list _TrackMetadata) (w : world) (lookup : dict) :
  dict_get lookup (track_num track) = None →
  is_data_track (title track) = true →
  encode_tracks path_str subprocess binary_name album temp_dir
    (before ++ track :: after) w lookup
  = encode_tracks path_str subprocess binary_name album temp_dir
      (before ++ after) w lookup
  ∧ Legacy.encode_tracks path_str subprocess binary_name album temp_dir
      (track :: after) w lookup
    = Ok (true, write (TrackNotFound (track_num track)) w, lookup).
Proof.
  intros Hg Hd. split.
  - revert w lookup Hg.
    induction before as [|t0 rest IH]; intros w lookup Hg; simpl.
    + unfold encode_track.
      rewrite (dict_pop_absent lookup (track_num track) Hg), Hd. reflexivity.
    + destruct (encode_track path_str subprocess binary_name album temp_dir t0 w
                  lookup) as [[[fl w1] l1]|e] eqn:Et; [|reflexivity].
      simpl. destruct fl as [|r]; [|reflexivity].
      apply IH.
      rewrite (encode_track_lookup _ _ _ _ _ _ _ _ _ _ _ Et).
      now apply dict_pop_None.
  - simpl. unfold Legacy.encode_track.
    rewrite (dict_pop_absent lookup (track_num track) Hg). reflexivity.
Qed.

Lemma data_track_transparent_witness :
  encode_tracks demo_path_str demo_subprocess "flac" demo_album ["flac"; "album.tmp"]
    ([demo_track 1 "So What"] ++ demo_track 3 "Data Track"
       :: [demo_track 2 "Blue in Green"]) demo_world (wav_lookup demo_album)
  = encode_tracks demo_path_str demo_subprocess "flac" demo_album
      ["flac"; "album.tmp"]
      ([demo_track 1 "So What"] ++ [demo_track 2 "Blue in Green"])
      demo_world (wav_lookup demo_album)
  ∧ Legacy.encode_tracks demo_path_str demo_subprocess "flac" demo_album
      ["flac"; "album.tmp"]
      (demo_track 3 "Data Track" :: [demo_track 2 "Blue in Green"])
      demo_world (wav_lookup demo_album)
    = Ok (true, write (TrackNotFound 3) demo_world, wav_lookup demo_album).
Proof.
  apply (data_track_transparent demo_path_str demo_subprocess "flac" demo_album
           ["flac"; "album.tmp"] (demo_track 3 "Data Track")
           [demo_track 1 "So What"] [demo_track 2 "Blue in Green"]
           demo_world (wav_lookup demo_album)); reflexivity.
Defined.

Section FailingTools.

Variable path_str : Path → string.
Variable subprocess : string → option Path → FS → Z * FS.
Variable binary_name : string.

(** The encoder process never exits with 0. *)
Hypothesis encoder_fails : ∀ command_line cwd fs,
  (subprocess command_line cwd fs).1 ≠ 0%Z.

Lemma encode_tracks_encoder_fails album temp_dir trks :
  ∀ t p w lookup fl w' lookup',
  t ∈ trks →
  dict_get lookup (track_num t) = Some p →
  encode_tracks path_str subprocess binary_name album temp_dir trks w lookup
  = Ok (fl, w', lookup') →
  fl = Return Failure.
Proof.
  induction trks as [|t0 rest IH]; intros t p w lookup fl w' lookup' Hin Hg; simpl.
  - now apply elem_of_nil in Hin.
  - intros H. apply bind_ok in H as ([[fl1 w1] l1] & Ht & H).
    destruct fl1 as [|r1].
    2: { injection H as <- _ _. f_equal. eapply encode_track_return, Ht. }
    revert Ht. unfold encode_track.
    pose proof (dict_pop_get lookup (track_num t0)) as Hp.
    destruct (dict_pop lookup (track_num t0)) as [[wav|] l0] eqn:Epop; simpl in Hp.
    + intros Ht. exfalso. apply bind_ok in Ht as (fs1 & _ & Ht).
      pose proof (encoder_fails
        (encode_command_line path_str binary_name album t0 wav
           (path_join temp_dir ("temp_" +:+ str_of_int (track_num t0))))
        None fs1) as Hc.
      destruct (subprocess _ None fs1) as [code fs2]. simpl in Hc.
      destruct (Z.eqb_spec code 0); [contradiction|]. simpl in Ht. discriminate.
    + destruct (is_data_track (title t0)); [|discriminate].
      intros [= <- <-].
      apply elem_of_cons in Hin as [->|Hin]; [congruence|].
      assert (Hl : l0 = lookup).
      { rewrite dict_pop_absent in Epop by (symmetry; exact Hp). congruence. }
      subst l0.
      exact (IH t p w lookup fl w' lookup' Hin Hg H).
Qed.

(** X23. When the encoder process fails, [Encode] fails: for an album of
    which some track has a wav file, and an output directory that is not
    there, it returns [Failure]. *)
Theorem Encode_encoder_fails (w w' : world) (album album' : _Album)
    (output_dir : Path) (t : _TrackMetadata) (p : Path) (r : _InvokeResult) :
  t ∈ tracks album →
  dict_get (wav_lookup album) (track_num t) = Some p →
  is_dir (w_fs w) output_dir = false →
  Encode path_str subprocess binary_name w album output_dir = Ok (r, w', album') →
  r = Failure.
Proof.
  intros Hin Hg Hdir. unfold Encode. rewrite Hdir.
  intros H.
  apply bind_ok in H as (temp_dir & _ & H).
  apply bind_ok in H as (fs2 & _ & H).
  apply bind_ok in H as ([[fl w3] lookup] & Hloop & H).
  apply (encode_tracks_encoder_fails album temp_dir (tracks album) t p) in Hloop
    as ->; [|assumption..].
  congruence.
Qed.

End FailingTools.

Lemma Encode_encoder_fails_witness :
  (ok_or (Skipped, demo_world, demo_album)
     (Encode demo_path_str always_failing "flac" demo_world demo_album
        ["flac"; "album"])).1.1 = Failure.
Proof.
  pose (r := ok_or (Skipped, demo_world, demo_album)
               (Encode demo_path_str always_failing "flac" demo_world demo_album
                  ["flac"; "album"])).
  apply (Encode_encoder_fails demo_path_str always_failing "flac"
           (λ _ _ _, ltac:(discriminate)) demo_world r.1.2 demo_album r.2
           ["flac"; "album"] (demo_track 1 "So What")
           ["rip"; "album"; "01 - So What.wav"]).
  - apply list_elem_of_here.
  - reflexivity.
  - reflexivity.
  - vm_compute. reflexivity.
Defined.

Section ToolCheck.

Variable path_str : Path → string.
Variable subprocess : string → option Path → FS → Z * FS.
Variable iterdir : FS → Path → list Path.
Variable os_name : string.

(** X22. When the encoder does not answer to [flac --version], or the
    archiver never answers, the run calls neither stage for any album. *)
Theorem EntryPoint_tool_missing (w : world)
    (input_directory archive_output_dir flac_output_dir : Path) :
  (subprocess "flac --version" None (w_fs w)).1 ≠ 0%Z
  ∨ (∀ fs, (subprocess "7z" None fs).1 ≠ 0%Z) →
  (EntryPoint path_str subprocess iterdir os_name w input_directory
     archive_output_dir flac_output_dir).1 = [].
Proof.
  intros Hmiss. unfold EntryPoint.
  destruct (discover iterdir (w_fs w) input_directory) as [dirs src].
  destruct (classify_all iterdir wav_regex 0 dirs w []) as [[w1 albums]|e] eqn:Ec;
    [|reflexivity].
  destruct albums as [|a0 albums0]; [reflexivity|].
  apply classify_all_fs in Ec.
  unfold _GetEncoder. cbv zeta.
  change ("flac" +:+ " --version") with "flac --version". rewrite Ec.
  destruct (subprocess "flac --version" None (w_fs w)) as [code fs'] eqn:Ef.
  destruct (Z.eqb_spec code 0) as [->|Hne]; simpl; [|reflexivity].
  destruct Hmiss as [Hflac|H7z]; [simpl in Hflac; contradiction|].
  unfold _GetArchiver. destruct (String.eqb os_name "nt"); [|reflexivity].
  simpl. specialize (H7z fs').
  destruct (subprocess "7z" None fs') as [code' fs'']. simpl in H7z.
  destruct (Z.eqb_spec code' 0); [contradiction|]. reflexivity.
Qed.

End ToolCheck.

Lemma EntryPoint_tool_missing_witness :
  (EntryPoint demo_path_str always_failing demo_iterdir "nt" demo_world
     ["rip"] ["archive"] ["flac"]).1 = [].
Proof.
  apply (EntryPoint_tool_missing demo_path_str always_failing demo_iterdir "nt"
           demo_world ["rip"] ["archive"] ["flac"]).
  left. discriminate.
Defined.
